(** * cherrymusic: playlist reconciliation in [api/serializers.py]

    A shallow embedding of [PlaylistSerializer] (lines 181-277 of
    [src/cherrymusic/api/serializers.py]) and of the Django ORM calls it
    makes, followed by the properties of the design document that concern
    it.

    - Python objects are values of the type [value]; a [dict] is a
      [gmap string value].
    - A Python method is a computation in the monad [M], which threads the
      object the method mutates in place (its "locals") and the database,
      and may raise an exception.  The database component is what
      [transaction.atomic()] restores when its block raises.
    - A database table with an integer primary key that is only ever looked
      up by that key is a finite map or set on [Z]; the tables the code
      searches by other columns ([Track], [Youtube], [PlaylistPosition])
      are lists of rows in insertion order. *)

From Stdlib Require Import ZArith.
From stdpp Require Import base option list gmap strings.

#[local] Set Warnings "-register-all,-clear-no-such-hyp".
#[local] Open Scope Z_scope.

(** ** Python values *)

(** [VFloat m e] is the binary floating point number [m * 2^e]; the code
    under study only stores and moves floats, it never computes with
    them. *)
Inductive value :=
| VNone
| VBool (b : bool)
| VInt (z : Z)
| VFloat (m e : Z)
| VStr (s : string)
| VList (l : list value)
| VDict (d : gmap string value).

(** Python's truth test, as used by [if youtube_data:] and
    [if file_data:]. *)
Definition truthy (v : value) : bool :=
  match v with
  | VNone => false
  | VBool b => b
  | VInt z => negb (z =? 0)
  | VFloat m _ => negb (m =? 0)
  | VStr s => match s with EmptyString => false | String _ _ => true end
  | VList l => match l with [] => false | _ :: _ => true end
  | VDict d => negb (Nat.eqb (size d) 0)
  end.

(** ** Exceptions *)

(** [DoesNotExist] and [MultipleObjectsReturned] carry the name of the
    model whose manager raised them. *)
Inductive exn :=
| KeyError (key : string)
| TypeError
| AttributeError
| ValueError
| DoesNotExist (model : string)
| MultipleObjectsReturned (model : string).

Inductive result (A : Type) :=
| Ok (a : A)
| Raise (e : exn).
Arguments Ok {A} a.
Arguments Raise {A} e.

(** ** Operations on Python objects *)

(** [o[k]] *)
Definition getitem (o : value) (k : string) : result value :=
  match o with
  | VDict d => match d !! k with Some v => Ok v | None => Raise (KeyError k) end
  | _ => Raise TypeError
  end.

(** [o[k] = v]; the result is the object after the assignment. *)
Definition setitem (o : value) (k : string) (v : value) : result unit * value :=
  match o with
  | VDict d => (Ok tt, VDict (<[k := v]> d))
  | _ => (Raise TypeError, o)
  end.

(** [o.pop(k)]: the popped value and the object after the call. *)
Definition pop (o : value) (k : string) : result value * value :=
  match o with
  | VDict d =>
      match d !! k with
      | Some v => (Ok v, VDict (delete k d))
      | None => (Raise (KeyError k), o)
      end
  | VList _ => (Raise TypeError, o)
  | _ => (Raise AttributeError, o)
  end.

(** [o.pop(k, dflt)] *)
Definition pop_default (o : value) (k : string) (dflt : value)
  : result value * value :=
  match o with
  | VDict d => (Ok (default dflt (d !! k)), VDict (delete k d))
  | VList _ => (Raise TypeError, o)
  | _ => (Raise AttributeError, o)
  end.

(** The one-character strings of a string, for iteration over a [str]. *)
Fixpoint chars (s : string) : list value :=
  match s with
  | EmptyString => []
  | String c s' => VStr (String c EmptyString) :: chars s'
  end.

(** ** The database *)

(** Modelled from the spec: the tables of [playlist.models] and
    [storage.models], which are not part of the sources at hand.  Section 3
    of the design document gives their columns; a column the code leaves to
    the model's default is [None].  A column holds the value the code hands
    to the manager, as it is handed over: the conversion of a value to the
    declared type of its column, and the error of a value that its column
    cannot hold, belong to the models and the database backend and are
    outside this embedding. *)
Record Playlist := mkPlaylist {
  playlist_name : option value;
  playlist_owner : option Z;
  playlist_public : option value;
}.

Record Track := mkTrack {
  track_id : Z;
  track_playlist : Z;
  track_order : option value;
  track_type : option value;
  track_file : option Z;
  track_youtube : option Z;
}.

Record Youtube := mkYoutube {
  youtube_pk : Z;
  video_id : string;
  youtube_title : option value;
  youtube_views : option value;
  youtube_duration : option value;
}.

Record PlaylistPosition := mkPlaylistPosition {
  position_id : Z;
  position_user_id : Z;
  position_playlist : Z;
  playback_position : value;
  active_track_idx : value;
}.

Record DB := mkDB {
  User_objects : gset Z;
  File_objects : gset Z;
  Playlist_objects : gmap Z Playlist;
  Track_objects : list Track;
  Youtube_objects : list Youtube;
  PlaylistPosition_objects : list PlaylistPosition;
  next_Playlist_id : Z;
  next_Track_id : Z;
  next_Youtube_id : Z;
  next_PlaylistPosition_id : Z;
}.

Definition set_Playlist_objects (f : gmap Z Playlist → gmap Z Playlist) (d : DB) : DB :=
  mkDB (User_objects d) (File_objects d) (f (Playlist_objects d))
       (Track_objects d) (Youtube_objects d) (PlaylistPosition_objects d)
       (next_Playlist_id d) (next_Track_id d) (next_Youtube_id d)
       (next_PlaylistPosition_id d).

Definition set_Track_objects (f : list Track → list Track) (d : DB) : DB :=
  mkDB (User_objects d) (File_objects d) (Playlist_objects d)
       (f (Track_objects d)) (Youtube_objects d) (PlaylistPosition_objects d)
       (next_Playlist_id d) (next_Track_id d) (next_Youtube_id d)
       (next_PlaylistPosition_id d).

Definition set_Youtube_objects (f : list Youtube → list Youtube) (d : DB) : DB :=
  mkDB (User_objects d) (File_objects d) (Playlist_objects d)
       (Track_objects d) (f (Youtube_objects d)) (PlaylistPosition_objects d)
       (next_Playlist_id d) (next_Track_id d) (next_Youtube_id d)
       (next_PlaylistPosition_id d).

Definition set_PlaylistPosition_objects
    (f : list PlaylistPosition → list PlaylistPosition) (d : DB) : DB :=
  mkDB (User_objects d) (File_objects d) (Playlist_objects d)
       (Track_objects d) (Youtube_objects d) (f (PlaylistPosition_objects d))
       (next_Playlist_id d) (next_Track_id d) (next_Youtube_id d)
       (next_PlaylistPosition_id d).

Definition set_next_Playlist_id (n : Z) (d : DB) : DB :=
  mkDB (User_objects d) (File_objects d) (Playlist_objects d)
       (Track_objects d) (Youtube_objects d) (PlaylistPosition_objects d)
       n (next_Track_id d) (next_Youtube_id d) (next_PlaylistPosition_id d).

Definition set_next_Track_id (n : Z) (d : DB) : DB :=
  mkDB (User_objects d) (File_objects d) (Playlist_objects d)
       (Track_objects d) (Youtube_objects d) (PlaylistPosition_objects d)
       (next_Playlist_id d) n (next_Youtube_id d) (next_PlaylistPosition_id d).

Definition set_next_Youtube_id (n : Z) (d : DB) : DB :=
  mkDB (User_objects d) (File_objects d) (Playlist_objects d)
       (Track_objects d) (Youtube_objects d) (PlaylistPosition_objects d)
       (next_Playlist_id d) (next_Track_id d) n (next_PlaylistPosition_id d).

Definition set_next_PlaylistPosition_id (n : Z) (d : DB) : DB :=
  mkDB (User_objects d) (File_objects d) (Playlist_objects d)
       (Track_objects d) (Youtube_objects d) (PlaylistPosition_objects d)
       (next_Playlist_id d) (next_Track_id d) (next_Youtube_id d) n.

(** ** The monad of a Python method *)

(** A computation over locals of type [L]: it receives the object it may
    mutate and the database, and returns a value or raises, together with
    the object and the database as it left them.  A raise keeps every write
    made so far; only [atomic] undoes database writes. *)
Definition M (L A : Type) : Type := L * DB → result A * (L * DB).

(** A database query or statement. *)
Definition Query (A : Type) : Type := DB → result A * DB.

Section monad.
Context {L : Type}.

Definition ret {A} (a : A) : M L A := λ s, (Ok a, s).

Definition raise {A} (e : exn) : M L A := λ s, (Raise e, s).

Definition bind {A B} (c : M L A) (k : A → M L B) : M L B :=
  λ s, match c s with
       | (Ok a, s') => k a s'
       | (Raise e, s') => (Raise e, s')
       end.

(** A pure operation that may raise. *)
Definition pure {A} (r : result A) : M L A := λ s, (r, s).

(** A database operation. *)
Definition orm {A} (q : Query A) : M L A :=
  λ s, let '(r, d') := q s.2 in (r, (s.1, d')).

(** [with transaction.atomic(): body]: when [body] raises, the database is
    put back as it was on entry and the exception propagates; Python
    objects keep their mutations. *)
Definition atomic {A} (body : M L A) : M L A :=
  λ s, match body s with
       | (Ok a, s') => (Ok a, s')
       | (Raise e, s') => (Raise e, (s'.1, s.2))
       end.

(** Calling a method that mutates its argument [arg]: the callee runs on
    [arg] as its locals; the caller's own locals are untouched. *)
Definition call {L' A} (callee : M L' A) (arg : L') : M L A :=
  λ s, let '(r, (_, d')) := callee (arg, s.2) in (r, (s.1, d')).
End monad.

#[global] Instance M_ret {L} : MRet (M L) := λ A, ret.
#[global] Instance M_bind {L} : MBind (M L) := λ A B k c, bind c k.

(** Operations on the locals, when they are a Python object. *)
Definition local_getitem (k : string) : M value value :=
  λ s, (getitem s.1 k, s).
Definition local_setitem (k : string) (v : value) : M value unit :=
  λ s, let '(r, o) := setitem s.1 k v in (r, (o, s.2)).
Definition local_pop (k : string) : M value value :=
  λ s, let '(r, o) := pop s.1 k in (r, (o, s.2)).
Definition local_pop_default (k : string) (dflt : value) : M value value :=
  λ s, let '(r, o) := pop_default s.1 k dflt in (r, (o, s.2)).
Definition locals : M value value := λ s, (Ok s.1, s).

(** [o.pop(k)] on a local variable: the popped value together with the
    variable's object after the call. *)
Definition pop_var (o : value) (k : string) : result (value * value) :=
  match pop o k with
  | (Ok v, o') => Ok (v, o')
  | (Raise e, _) => Raise e
  end.

(** ** The ORM calls the serializer makes *)

(** A primary key given as a Python value.  The serializers' [IntegerField]s
    deliver an [int]; any other value is refused. *)
Definition to_pk (v : value) : result Z :=
  match v with
  | VInt z => Ok z
  | _ => Raise ValueError
  end.

(** [User.objects.get(id=v)]; the user instance is its primary key. *)
Definition User_objects_get (v : value) : Query Z :=
  λ d, match to_pk v with
       | Ok z => if decide (z ∈ User_objects d) then (Ok z, d)
                 else (Raise (DoesNotExist "User"), d)
       | Raise e => (Raise e, d)
       end.

(** [File.objects.get(id=v)] *)
Definition File_objects_get (v : value) : Query Z :=
  λ d, match to_pk v with
       | Ok z => if decide (z ∈ File_objects d) then (Ok z, d)
                 else (Raise (DoesNotExist "File"), d)
       | Raise e => (Raise e, d)
       end.

(** [Playlist.objects.get(id=v)]: the instance is the primary key with the
    row's columns. *)
Definition Playlist_objects_get (v : value) : Query (Z * Playlist) :=
  λ d, match to_pk v with
       | Ok z => match Playlist_objects d !! z with
                 | Some p => (Ok (z, p), d)
                 | None => (Raise (DoesNotExist "Playlist"), d)
                 end
       | Raise e => (Raise e, d)
       end.

(** [Playlist.objects.filter(id=v)]: building the query set checks the
    lookup value and touches no row. *)
Definition Playlist_objects_filter (v : value) : result Z := to_pk v.

(** [qs.update(name=name, public=public)] on the query set [filter(id=z)]. *)
Definition Playlist_update (z : Z) (name public : value) : Query unit :=
  λ d, (Ok tt,
        set_Playlist_objects
          (alter (λ p, mkPlaylist (Some name) (playlist_owner p) (Some public)) z) d).

(** [Playlist.objects.create] applied to the keywords [kwargs]; the owner
    instance travels in [kwargs] as its primary key. *)
Definition Playlist_objects_create (kwargs : value) : Query (Z * Playlist) :=
  λ d, match kwargs with
       | VDict m =>
           if decide (dom m ⊆ ({["name"; "owner"; "public"]} : gset string)) then
             let p := mkPlaylist (m !! "name")
                        (match m !! "owner" with Some (VInt u) => Some u | _ => None end)
                        (m !! "public") in
             let z := next_Playlist_id d in
             (Ok (z, p),
              set_next_Playlist_id (z + 1)
                (set_Playlist_objects (insert z p) d))
           else (Raise TypeError, d)
       | _ => (Raise TypeError, d)
       end.

(** [Track.objects.filter(playlist=playlist).delete()] *)
Definition Track_objects_filter_delete (playlist : Z) : Query unit :=
  λ d, (Ok tt, set_Track_objects (filter (λ t, track_playlist t ≠ playlist)) d).

(** [Track.objects.create(playlist=playlist, file=file, youtube=youtube)]
    with the further keywords [kwargs]: a keyword that is no column of
    [Track] (or repeats an explicit one) is a [TypeError]. *)
Definition Track_objects_create (playlist : Z) (file youtube : option Z)
    (kwargs : value) : Query unit :=
  λ d, match kwargs with
       | VDict m =>
           if decide (dom m ⊆ ({["order"; "type"]} : gset string)) then
             let t := mkTrack (next_Track_id d) playlist
                        (m !! "order") (m !! "type") file youtube in
             (Ok tt,
              set_next_Track_id (next_Track_id d + 1)
                (set_Track_objects (λ l, l ++ [t]) d))
           else (Raise TypeError, d)
       | _ => (Raise TypeError, d)
       end.

(** [Youtube.objects.get_or_create(video_id=v, defaults=defaults)[0]]: the
    instance is its primary key.  [YoutubeSerializer] delivers the
    identifier as a [str]; any other value is refused.  [defaults] is only
    looked at when no row matches. *)
Definition Youtube_objects_get_or_create (v : value) (defaults : value)
  : Query Z :=
  λ d, match v with
       | VStr s =>
           match filter (λ y, video_id y = s) (Youtube_objects d) with
           | [y] => (Ok (youtube_pk y), d)
           | _ :: _ :: _ => (Raise (MultipleObjectsReturned "Youtube"), d)
           | [] =>
               match defaults with
               | VDict m =>
                   if decide (dom m ⊆ ({["title"; "views"; "duration"]} : gset string))
                   then
                     let y := mkYoutube (next_Youtube_id d) s
                                (m !! "title") (m !! "views") (m !! "duration") in
                     (Ok (next_Youtube_id d),
                      set_next_Youtube_id (next_Youtube_id d + 1)
                        (set_Youtube_objects (λ l, l ++ [y]) d))
                   else (Raise TypeError, d)
               | _ => (Raise TypeError, d)
               end
           end
       | _ => (Raise ValueError, d)
       end.

(** The rows of [PlaylistPosition] for one (user, playlist) pair. *)
Definition position_of (user_id playlist : Z) (r : PlaylistPosition) : Prop :=
  position_user_id r = user_id ∧ position_playlist r = playlist.

#[global] Instance position_of_dec u p r : Decision (position_of u p r).
Proof. unfold position_of. apply _. Defined.

(** [PlaylistPosition.objects.update_or_create(user_id=user_id,
    playlist=playlist, defaults=dict(playback_position=pp,
    active_track_idx=ati))] *)
Definition PlaylistPosition_objects_update_or_create (user_id playlist : Z)
    (pp ati : value) : Query unit :=
  λ d, match filter (position_of user_id playlist) (PlaylistPosition_objects d) with
       | [] =>
           let r := mkPlaylistPosition (next_PlaylistPosition_id d)
                      user_id playlist pp ati in
           (Ok tt,
            set_next_PlaylistPosition_id (next_PlaylistPosition_id d + 1)
              (set_PlaylistPosition_objects (λ l, l ++ [r]) d))
       | [_] =>
           (Ok tt,
            set_PlaylistPosition_objects
              (fmap (λ r, if decide (position_of user_id playlist r)
                          then mkPlaylistPosition (position_id r) user_id playlist pp ati
                          else r)) d)
       | _ :: _ :: _ => (Raise (MultipleObjectsReturned "PlaylistPosition"), d)
       end.

(** ** [PlaylistSerializer] *)

Module PlaylistSerializer.

(** [set_playback_position(cls, playlist, active_track_idx,
    playback_position, user)], lines 204-213. *)
Definition set_playback_position {L} (playlist : Z * Playlist)
    (active_track_idx playback_position : value) (user : Z) : M L unit :=
  orm (PlaylistPosition_objects_update_or_create user playlist.1
         playback_position active_track_idx).

(** The body of the loop of [sync_tracks], lines 222-245; its locals are the
    descriptor [track_data]. *)
Definition sync_tracks_body (playlist : Z * Playlist) (idx : Z) : M value unit :=
  local_setitem "order" (VInt idx);;
  local_pop_default "id" (VStr EmptyString);;
  local_pop_default "playlist" (VStr EmptyString);;
  youtube_data ← local_pop "youtube";
  youtube ← (if truthy youtube_data then
               '(youtube_id, youtube_data) ← pure (pop_var youtube_data "youtube_id");
               y ← orm (Youtube_objects_get_or_create youtube_id youtube_data);
               mret (Some y)
             else mret None);
  file_data ← local_pop "file";
  file ← (if truthy file_data then
            id ← pure (getitem file_data "id");
            f ← orm (File_objects_get id);
            mret (Some f)
          else mret None);
  track_data ← locals;
  orm (Track_objects_create playlist.1 file youtube track_data).

(** [for idx, x in enumerate(l, idx): body], on a list: each element is
    replaced by the object the body leaves; the loop stops at the first
    raise. *)
Fixpoint enumerate_from (body : Z → M value unit) (idx : Z) (l : list value)
    (d : DB) : result unit * (list value * DB) :=
  match l with
  | [] => (Ok tt, ([], d))
  | x :: l' =>
      match body idx (x, d) with
      | (Ok _, (x', d')) =>
          let '(r, (l'', d'')) := enumerate_from body (idx + 1) l' d' in
          (r, (x' :: l'', d''))
      | (Raise e, (x', d')) => (Raise e, (x' :: l', d'))
      end
  end.

(** [for idx, x in enumerate(o): body] on an arbitrary object [o], the
    locals.  A list yields its elements; a dict yields its keys and a string
    its characters, which are strings and so cannot be mutated; anything
    else is not iterable. *)
Definition for_enumerate (body : Z → M value unit) : M value unit :=
  λ s, match s.1 with
       | VList l =>
           let '(r, (l', d')) := enumerate_from body 0 l s.2 in
           (r, (VList l', d'))
       | VDict m =>
           let '(r, (_, d')) := enumerate_from body 0 (VStr <$> (map_to_list m).*1) s.2 in
           (r, (s.1, d'))
       | VStr str =>
           let '(r, (_, d')) := enumerate_from body 0 (chars str) s.2 in
           (r, (s.1, d'))
       | _ => (Raise TypeError, s)
       end.

(** [sync_tracks(cls, playlist, tracks_data)], lines 215-245; its locals are
    the list [tracks_data], which it mutates. *)
Definition sync_tracks (playlist : Z * Playlist) : M value unit :=
  atomic (
    orm (Track_objects_filter_delete playlist.1);;
    for_enumerate (sync_tracks_body playlist)).

(** [update(self, instance, validated_data)], lines 247-263; its locals are
    [validated_data].  [instance] is not used by the method. *)
Definition update (instance : Z * Playlist) : M value (Z * Playlist) :=
  id ← local_pop_default "id" (VInt (-1));
  tracks_data ← local_pop "tracks";
  owner ← local_pop "owner";
  owner_id ← pure (getitem owner "id");
  user ← orm (User_objects_get owner_id);
  atomic (
    qs ← pure (Playlist_objects_filter id);
    name ← local_getitem "name";
    public ← local_getitem "public";
    orm (Playlist_update qs name public);;
    playlist ← orm (Playlist_objects_get id);
    playback_position ← local_pop "get_playback_position";
    active_track_idx ← local_pop "get_active_track_idx";
    set_playback_position playlist playback_position active_track_idx user;;
    call (sync_tracks playlist) tracks_data;;
    mret playlist).

(** [create(self, validated_data)], lines 265-277. *)
Definition create : M value (Z * Playlist) :=
  id ← local_pop_default "id" (VInt (-1));
  tracks_data ← local_pop "tracks";
  owner ← local_pop "owner";
  owner_id ← pure (getitem owner "id");
  user ← orm (User_objects_get owner_id);
  local_setitem "owner" (VInt user);;
  atomic (
    playback_position ← local_pop "get_playback_position";
    active_track_idx ← local_pop "get_active_track_idx";
    validated_data ← locals;
    playlist ← orm (Playlist_objects_create validated_data);
    set_playback_position playlist active_track_idx playback_position user;;
    call (sync_tracks playlist) tracks_data;;
    mret playlist).

End PlaylistSerializer.

(** ** [SimpleDirectorySerializer] *)

(** What the serializer reads of a [Directory] instance (the model is in
    [storage.models]): its primary key, its parent directory if it has one,
    and its path. *)
Inductive Directory :=
| mkDirectory (id : Z) (parent : option Directory) (path : string).

Definition directory_id (dir : Directory) : Z :=
  match dir with mkDirectory id _ _ => id end.
Definition directory_parent (dir : Directory) : option Directory :=
  match dir with mkDirectory _ parent _ => parent end.
Definition directory_path (dir : Directory) : string :=
  match dir with mkDirectory _ _ path => path end.

(** [s.endswith(c)] for a one-character string [c]. *)
Fixpoint endswith (s : string) (c : Ascii.ascii) : bool :=
  match s with
  | EmptyString => false
  | String a EmptyString => Ascii.eqb a c
  | String _ s' => endswith s' c
  end.

(** [s[:-1]] *)
Fixpoint drop_last (s : string) : string :=
  match s with
  | EmptyString => EmptyString
  | String _ EmptyString => EmptyString
  | String a s' => String a (drop_last s')
  end.

(** The two sides of the last occurrence of the character [c] in [s], if it
    occurs. *)
Fixpoint split_last (c : Ascii.ascii) (s : string) : option (string * string) :=
  match s with
  | EmptyString => None
  | String a s' =>
      match split_last c s' with
      | Some (before, after) => Some (String a before, after)
      | None => if Ascii.eqb a c then Some (EmptyString, s') else None
      end
  end.

(** [s.rsplit(c, 1)] for a one-character separator [c]. *)
Definition rsplit1 (s : string) (c : Ascii.ascii) : list string :=
  match split_last c s with
  | Some (before, after) => [before; after]
  | None => [s]
  end.

(** [l[-1]]; [None] stands for the [IndexError] of an empty list. *)
Definition last_item (l : list string) : option string := last l.

Module SimpleDirectorySerializer.
Section sep.
(** [os.path.sep], a single character on every platform. *)
Context (sep : Ascii.ascii).

(** [get_parent(self, instance)], lines 118-121. *)
Definition get_parent (instance : Directory) : Z :=
  match directory_parent instance with
  | None => -1
  | Some parent => directory_id parent
  end.

(** [get_sanitized_path(dir)], lines 123-130. *)
Definition get_sanitized_path (dir : Directory) : option string :=
  match directory_parent dir with
  | None =>
      let path := if endswith (directory_path dir) sep
                  then drop_last (directory_path dir)
                  else directory_path dir in
      last_item (rsplit1 path sep)
  | Some _ => Some (directory_path dir)
  end.
End sep.
End SimpleDirectorySerializer.

(** * The vocabulary of the properties *)

Import PlaylistSerializer.

(** A computation that never writes to the database. *)
Definition db_readonly {L A} (c : M L A) : Prop :=
  ∀ (s : L * DB) r s', c s = (r, s') → s'.2 = s.2.

(** A computation whose raises leave the database as it found it. *)
Definition raise_restores {L A} (c : M L A) : Prop :=
  ∀ (s : L * DB) e s', c s = (Raise e, s') → s'.2 = s.2.

(** The rows of [Youtube] a lookup by video identifier finds. *)
Definition Youtube_with (s : string) (T : list Youtube) : list Youtube :=
  filter (λ y, video_id y = s) T.

(** [T'] is [T] followed by rows whose video identifiers are new and
    pairwise distinct: what a run of [get_or_create] calls does to the
    table. *)
Definition table_extends (T T' : list Youtube) : Prop :=
  ∃ new, T' = T ++ new ∧ NoDup (video_id <$> new) ∧
         ∀ y, y ∈ new → Youtube_with (video_id y) T = [].

(** The [Youtube] reference of a descriptor whose [youtube] entry is [yv],
    when the table [T] already holds the row: [Some None] for a false
    entry, [Some (Some pk)] for the one row with the entry's identifier. *)
Definition youtube_ref (T : list Youtube) (yv : value) : option (option Z) :=
  if truthy yv then
    match pop_var yv "youtube_id" with
    | Ok (VStr s, _) =>
        match Youtube_with s T with
        | [y] => Some (Some (youtube_pk y))
        | _ => None
        end
    | _ => None
    end
  else Some None.

(** The [File] reference of a descriptor whose [file] entry is [fv]. *)
Definition file_ref (F : gset Z) (fv : value) : option (option Z) :=
  if truthy fv then
    match getitem fv "id" with
    | Ok (VInt z) => if decide (z ∈ F) then Some (Some z) else None
    | _ => None
    end
  else Some None.

(** The descriptor [m] as [sync_tracks] leaves it. *)
Definition stripped (idx : Z) (m : gmap string value) : gmap string value :=
  delete "file" (delete "youtube" (delete "playlist" (delete "id"
    (<["order" := VInt idx]> m)))).

(** The [Track] row with primary key [id] that the descriptor [td] at
    position [idx] gives rise to. *)
Definition descriptor_row (T : list Youtube) (F : gset Z) (playlist idx id : Z)
    (td : value) : option Track :=
  match td with
  | VDict m =>
      yv ← m !! "youtube";
      yo ← youtube_ref T yv;
      fv ← m !! "file";
      fo ← file_ref F fv;
      if decide (dom (stripped idx m) ⊆ ({["order"; "type"]} : gset string))
      then Some (mkTrack id playlist (Some (VInt idx)) (m !! "type") fo yo)
      else None
  | _ => None
  end.

Fixpoint descriptor_rows (T : list Youtube) (F : gset Z) (playlist idx id : Z)
    (l : list value) : option (list Track) :=
  match l with
  | [] => Some []
  | td :: l' =>
      t ← descriptor_row T F playlist idx id td;
      ts ← descriptor_rows T F playlist (idx + 1) (id + 1) l';
      Some (t :: ts)
  end.

(** The descriptors as [sync_tracks] leaves them after a full pass. *)
Fixpoint stripped_list (idx : Z) (l : list value) : list value :=
  match l with
  | [] => []
  | VDict m :: l' => VDict (stripped idx m) :: stripped_list (idx + 1) l'
  | v :: l' => v :: stripped_list (idx + 1) l'
  end.

(** The video identifier a descriptor carries, if any. *)
Definition descriptor_video (td : value) : option string :=
  match td with
  | VDict m =>
      match m !! "youtube" with
      | Some yv =>
          if truthy yv then
            match pop_var yv "youtube_id" with
            | Ok (VStr s, _) => Some s
            | _ => None
            end
          else None
      | None => None
      end
  | _ => None
  end.

(** The columns other than [Track], [Youtube] and their counters agree. *)
Definition same_frame (d d' : DB) : Prop :=
  User_objects d' = User_objects d ∧
  File_objects d' = File_objects d ∧
  Playlist_objects d' = Playlist_objects d ∧
  PlaylistPosition_objects d' = PlaylistPosition_objects d ∧
  next_Playlist_id d' = next_Playlist_id d ∧
  next_PlaylistPosition_id d' = next_PlaylistPosition_id d.

(** Lines 227-234 in isolation: the [Youtube] instance of a descriptor. *)
Definition youtube_block (youtube_data : value) : Query (option Z) :=
  λ d, if truthy youtube_data then
         match pop_var youtube_data "youtube_id" with
         | Ok (youtube_id, defaults) =>
             match Youtube_objects_get_or_create youtube_id defaults d with
             | (Ok y, d') => (Ok (Some y), d')
             | (Raise e, d') => (Raise e, d')
             end
         | Raise e => (Raise e, d)
         end
       else (Ok None, d).

(** Lines 235-238 in isolation: the [File] instance of a descriptor. *)
Definition file_block (file_data : value) : Query (option Z) :=
  λ d, if truthy file_data then
         match getitem file_data "id" with
         | Ok id =>
             match File_objects_get id d with
             | (Ok f, d') => (Ok (Some f), d')
             | (Raise e, d') => (Raise e, d')
             end
         | Raise e => (Raise e, d)
         end
       else (Ok None, d).

(** The tracks of a playlist, in table order. *)
Definition playlist_tracks (playlist : Z) (d : DB) : list Track :=
  filter (λ t, track_playlist t = playlist) (Track_objects d).

(** The rows of [PlaylistPosition] for one (playlist, user) pair. *)
Definition positions_for (user_id playlist : Z) (d : DB) : list PlaylistPosition :=
  filter (position_of user_id playlist) (PlaylistPosition_objects d).

(** At most one row per (playlist, user) pair. *)
Definition positions_unique (d : DB) : Prop :=
  ∀ u p, (length (positions_for u p d) ≤ 1)%nat.

(** What the update branch of [update_or_create] does to a row. *)
Definition write_position (u p : Z) (pp ati : value) (r : PlaylistPosition)
  : PlaylistPosition :=
  if decide (position_of u p r)
  then mkPlaylistPosition (position_id r) u p pp ati else r.

(** The validated data as [update] leaves them. *)
Definition update_popped (m : gmap string value) : gmap string value :=
  delete "get_active_track_idx" (delete "get_playback_position"
    (delete "owner" (delete "tracks" (delete "id" m)))).

(** The steps of a successful [update] on the validated data [m]: the
    playlist [id] gets the submitted name and visibility, the position row
    of ([id], [user]) is upserted, and the tracks are synchronised.  Note
    the order in which the two playback values reach
    [update_or_create]. *)
Inductive update_steps (m : gmap string value) (d d' : DB) (r : Z * Playlist)
    (o' : value) : Prop :=
| UpdateSteps (id user : Z) (tracks_data owner name public pp ati : value)
    (d2 : DB)
    (Hid : default (VInt (-1)) (m !! "id") = VInt id)
    (Htracks : m !! "tracks" = Some tracks_data)
    (Howner : m !! "owner" = Some owner)
    (Huser : getitem owner "id" = Ok (VInt user))
    (Huser_in : user ∈ User_objects d)
    (Hname : m !! "name" = Some name)
    (Hpublic : m !! "public" = Some public)
    (Hpp : m !! "get_playback_position" = Some pp)
    (Hati : m !! "get_active_track_idx" = Some ati)
    (Hrow : Playlist_objects (Playlist_update id name public d).2 !! id = Some r.2)
    (Hr : r.1 = id)
    (Hposition :
       PlaylistPosition_objects_update_or_create user id ati pp
         (Playlist_update id name public d).2 = (Ok tt, d2))
    (Hsync : sync_tracks r (tracks_data, d2) = (Ok tt, (o', d'))).

(** A sequence of [set_playback_position] calls, each given as (playlist,
    active_track_idx, playback_position, user); a call that raises leaves
    the database as it found it. *)
Fixpoint set_positions (calls : list (Z * Playlist * value * value * Z))
    (d : DB) : DB :=
  match calls with
  | [] => d
  | (playlist, active_track_idx, playback_position, user) :: calls' =>
      set_positions calls'
        (set_playback_position playlist active_track_idx playback_position user
           (tt, d)).2.2
  end.

(** The columns of a track other than its primary key. *)
Definition track_content (t : Track)
  : Z * option value * option value * option Z * option Z :=
  (track_playlist t, track_order t, track_type t, track_file t, track_youtube t).

(** Whether the character [c] occurs in [s]. *)
Fixpoint occurs (c : Ascii.ascii) (s : string) : bool :=
  match s with
  | EmptyString => false
  | String a s' => Ascii.eqb a c || occurs c s'
  end.

(** The validated data that [PlaylistSerializer] hands to [update] (fields
    declared on lines 156-199): a [youtube] entry is false or a dict with a
    string [youtube_id] and no entry besides the declared ones; a [file]
    entry is false or a dict with an integer [id]; a track descriptor is a
    dict with both entries and no entry besides the ones [sync_tracks]
    handles. *)
Definition youtube_shape (yv : value) : Prop :=
  truthy yv = false ∨
  ∃ (ym : gmap string value) s,
    yv = VDict ym ∧ ym !! "youtube_id" = Some (VStr s) ∧
    dom ym ⊆ ({["youtube_id"; "title"; "views"; "duration"]} : gset string).

Definition file_shape (fv : value) : Prop :=
  truthy fv = false ∨
  ∃ (fm : gmap string value) z, fv = VDict fm ∧ fm !! "id" = Some (VInt z).

Definition descriptor_shape (td : value) : Prop :=
  ∃ (m : gmap string value) yv fv,
    td = VDict m ∧ m !! "youtube" = Some yv ∧ m !! "file" = Some fv ∧
    youtube_shape yv ∧ file_shape fv ∧
    dom m ⊆ ({["id"; "playlist"; "order"; "type"; "youtube"; "file"]} : gset string).

(** The playlist data with track list [l], for the playlist [z] and the
    owner [u]. *)
Definition playlist_shape (m : gmap string value) (l : list value) (z u : Z)
  : Prop :=
  default (VInt (-1)) (m !! "id") = VInt z ∧
  m !! "tracks" = Some (VList l) ∧ Forall descriptor_shape l ∧
  (∃ om : gmap string value,
     m !! "owner" = Some (VDict om) ∧ om !! "id" = Some (VInt u)) ∧
  is_Some (m !! "name") ∧ is_Some (m !! "public") ∧
  is_Some (m !! "get_playback_position") ∧
  is_Some (m !! "get_active_track_idx").

(** Every file a descriptor names is in the set [F]. *)
Definition files_exist (F : gset Z) (td : value) : Prop :=
  ∀ (m fm : gmap string value) z,
    td = VDict m → m !! "file" = Some (VDict fm) → fm !! "id" = Some (VInt z) →
    z ∈ F.

(** ** Sample data *)

Module Sample.

Definition dict (l : list (string * value)) : value := VDict (list_to_map l).

(** Users 7 and 8, files 3 and 4, playlist 5 of user 7 holding one track,
    playlist 6 holding another, and a playback position of user 7 in
    playlist 5. *)
Definition db : DB := {|
  User_objects := {[7; 8]};
  File_objects := {[3; 4]};
  Playlist_objects :=
    {[5 := mkPlaylist (Some (VStr "old")) (Some 7) (Some (VBool false));
      6 := mkPlaylist (Some (VStr "other")) (Some 8) (Some (VBool true))]};
  Track_objects :=
    [mkTrack 1 5 (Some (VInt 0)) (Some (VInt 0)) (Some 4) None;
     mkTrack 2 6 (Some (VInt 0)) (Some (VInt 0)) (Some 3) None];
  Youtube_objects := [];
  PlaylistPosition_objects := [mkPlaylistPosition 1 7 5 (VFloat 3 0) (VInt 0)];
  next_Playlist_id := 7;
  next_Track_id := 3;
  next_Youtube_id := 1;
  next_PlaylistPosition_id := 2;
|}.

Definition playlist5 : Z * Playlist :=
  (5, mkPlaylist (Some (VStr "old")) (Some 7) (Some (VBool false))).

Definition file_ref_items (file : Z) : list (string * value) :=
  [("id", VInt file); ("filename", VStr "a.mp3")].

Definition file_items (order file : Z) : list (string * value) :=
  [("order", VInt order); ("type", VInt 0); ("youtube", VNone);
   ("file", dict (file_ref_items file))].

Definition file_track (order file : Z) : value := dict (file_items order file).

Definition youtube_attrs (youtube_id title : string) : list (string * value) :=
  [("youtube_id", VStr youtube_id); ("title", VStr title);
   ("views", VInt 10); ("duration", VInt 200)].

Definition youtube_items (order : Z) (youtube_id title : string)
  : list (string * value) :=
  [("order", VInt order); ("type", VInt 1); ("file", VNone);
   ("youtube", dict (youtube_attrs youtube_id title))].

Definition youtube_track (order : Z) (youtube_id title : string) : value :=
  dict (youtube_items order youtube_id title).

(** The validated data of a playlist with identity [id] owned by user 7,
    active track 1 at 42.5 seconds. *)
Definition playlist (id : Z) (tracks : list value) : value :=
  dict [("id", VInt id); ("name", VStr "new"); ("public", VBool true);
        ("owner", dict [("id", VInt 7)]);
        ("get_active_track_idx", VInt 1);
        ("get_playback_position", VFloat 85 (-1));
        ("tracks", VList tracks)].

(** Playlist 5 submitted with user 8 as its owner. *)
Definition other_owner_items : list (string * value) :=
  [("id", VInt 5); ("name", VStr "new"); ("public", VBool true);
   ("owner", dict [("id", VInt 8)]);
   ("get_active_track_idx", VInt 1);
   ("get_playback_position", VFloat 85 (-1));
   ("tracks", VList [file_track 0 3])].
Definition other_owner : value := dict other_owner_items.

Definition playlist5_new : Z * Playlist :=
  (5, mkPlaylist (Some (VStr "new")) (Some 7) (Some (VBool true))).

(** A descriptor with neither source, and one with both. *)
Definition neither_items : list (string * value) :=
  [("order", VInt 0); ("type", VInt 0); ("youtube", VNone); ("file", VNone)].
Definition neither : value := dict neither_items.
Definition both : value :=
  dict [("order", VInt 1); ("type", VInt 1);
        ("youtube", dict (youtube_attrs "abc" "T"));
        ("file", dict [("id", VInt 3)])].

(** Playlist 5 submitted with three descriptors that all carry order 9. *)
Definition nines : list value :=
  [file_track 9 3; youtube_track 9 "abc" "T"; file_track 9 4].
Definition nines_items : list (string * value) :=
  [("id", VInt 5); ("name", VStr "new"); ("public", VBool true);
   ("owner", dict [("id", VInt 7)]);
   ("get_active_track_idx", VInt 1);
   ("get_playback_position", VFloat 85 (-1));
   ("tracks", VList nines)].

(** A playlist whose second descriptor names a file that does not exist. *)
Definition dangling : value :=
  playlist 5 [file_track 0 3; file_track 1 99; youtube_track 2 "abc" "T"].

(** The base directory "/home/music/" and one of its children. *)
Definition slash : Ascii.ascii := Ascii.ascii_of_nat 47.
Definition music : string := "music".
Definition base_dir : Directory := mkDirectory 1 None "/home/music/".
Definition child_dir : Directory :=
  mkDirectory 2 (Some base_dir) "/home/music/rock".

(** A descriptor without [youtube] key. *)
Definition no_youtube_items : list (string * value) :=
  [("order", VInt 0); ("type", VInt 0); ("file", dict [("id", VInt 3)])].

(** Playlist 5 submitted for user 99, who does not exist. *)
Definition unknown_owner_items : list (string * value) :=
  [("id", VInt 5); ("name", VStr "new"); ("public", VBool true);
   ("owner", dict [("id", VInt 99)]);
   ("get_active_track_idx", VInt 1);
   ("get_playback_position", VFloat 85 (-1));
   ("tracks", VList [])].

(** Validated data without an [id] entry. *)
Definition unknown_playlist_items : list (string * value) :=
  [("name", VStr "new"); ("public", VBool true);
   ("owner", dict [("id", VInt 7)]);
   ("get_active_track_idx", VInt 1);
   ("get_playback_position", VFloat 85 (-1));
   ("tracks", VList [])].

(** The sample database with a second position row for user 7 in
    playlist 5. *)
Definition db_two_rows : DB :=
  set_PlaylistPosition_objects
    (λ l, l ++ [mkPlaylistPosition 2 7 5 (VFloat 1 0) (VInt 3)]) db.

End Sample.

(** * Properties *)

(** ** Reasoning about computations *)

Section monad_facts.
Context {L : Type}.
Implicit Types s : L * DB.

Lemma bind_eq {A B} (c : M L A) (k : A → M L B) s :
  (c ≫= k) s =
  match c s with (Ok a, s') => k a s' | (Raise e, s') => (Raise e, s') end.
Proof. reflexivity. Qed.

Lemma bind_Ok {A B} (c : M L A) (k : A → M L B) s b s2 :
  (c ≫= k) s = (Ok b, s2) ↔ ∃ a s1, c s = (Ok a, s1) ∧ k a s1 = (Ok b, s2).
Proof.
  rewrite bind_eq. split.
  - destruct (c s) as [[a|e] s1]; [eauto | discriminate].
  - intros (a & s1 & -> & ?); done.
Qed.

Lemma bind_Raise {A B} (c : M L A) (k : A → M L B) s e s2 :
  (c ≫= k) s = (Raise e, s2) ↔
  c s = (Raise e, s2) ∨ ∃ a s1, c s = (Ok a, s1) ∧ k a s1 = (Raise e, s2).
Proof.
  rewrite bind_eq. split.
  - destruct (c s) as [[a|e'] s1]; [eauto | intros [= -> ->]; eauto].
  - intros [-> | (a & s1 & -> & ?)]; done.
Qed.

Lemma atomic_restores {A} (body : M L A) : raise_restores (atomic body).
Proof.
  intros s e s'. unfold atomic.
  destruct (body s) as [[a|e'] s1]; [discriminate | by intros [= _ <-]].
Qed.

Lemma atomic_Ok {A} (body : M L A) s a s' :
  atomic body s = (Ok a, s') ↔ body s = (Ok a, s').
Proof.
  unfold atomic. destruct (body s) as [[a'|e'] s1]; split; congruence.
Qed.

Lemma atomic_Raise {A} (body : M L A) s e s' :
  atomic body s = (Raise e, s') ↔
  ∃ s1, body s = (Raise e, s1) ∧ s' = (s1.1, s.2).
Proof.
  unfold atomic. destruct (body s) as [[a'|e'] s1]; split.
  - discriminate.
  - intros (? & ? & _); discriminate.
  - intros [= -> <-]; eauto.
  - intros (? & [= -> <-] & ->); done.
Qed.

Lemma bind_restores {A B} (c : M L A) (k : A → M L B) :
  db_readonly c → (∀ a, raise_restores (k a)) → raise_restores (c ≫= k).
Proof.
  intros Hc Hk s e s' [H | (a & s1 & H1 & H2)]%bind_Raise.
  - eauto.
  - rewrite (Hk _ _ _ _ H2). eauto.
Qed.

Lemma pure_readonly {A} (r : result A) : db_readonly (pure r : M L A).
Proof. by intros s r' s' [= _ <-]. Qed.

Lemma User_objects_get_readonly v : db_readonly (orm (User_objects_get v) : M L Z).
Proof.
  intros [l d] r s'. unfold orm, User_objects_get; simpl.
  destruct (to_pk v); [case_decide|]; by intros [= _ <-].
Qed.
End monad_facts.

Lemma local_getitem_readonly k : db_readonly (local_getitem k).
Proof. by intros s r s' [= _ <-]. Qed.

Lemma local_setitem_readonly k v : db_readonly (local_setitem k v).
Proof.
  intros [o d] r s'. unfold local_setitem; simpl.
  destruct (setitem o k v); by intros [= _ <-].
Qed.

Lemma local_pop_readonly k : db_readonly (local_pop k).
Proof.
  intros [o d] r s'. unfold local_pop; simpl.
  destruct (pop o k); by intros [= _ <-].
Qed.

Lemma local_pop_default_readonly k v : db_readonly (local_pop_default k v).
Proof.
  intros [o d] r s'. unfold local_pop_default; simpl.
  destruct (pop_default o k v); by intros [= _ <-].
Qed.

Lemma sync_tracks_restores playlist : raise_restores (sync_tracks playlist).
Proof. apply atomic_restores. Qed.

Lemma update_restores instance : raise_restores (update instance).
Proof.
  unfold update.
  apply bind_restores; [apply local_pop_default_readonly | intros id].
  apply bind_restores; [apply local_pop_readonly | intros tracks_data].
  apply bind_restores; [apply local_pop_readonly | intros owner].
  apply bind_restores; [apply pure_readonly | intros owner_id].
  apply bind_restores; [apply User_objects_get_readonly | intros user].
  apply atomic_restores.
Qed.

Lemma create_restores : raise_restores create.
Proof.
  unfold create.
  apply bind_restores; [apply local_pop_default_readonly | intros id].
  apply bind_restores; [apply local_pop_readonly | intros tracks_data].
  apply bind_restores; [apply local_pop_readonly | intros owner].
  apply bind_restores; [apply pure_readonly | intros owner_id].
  apply bind_restores; [apply User_objects_get_readonly | intros user].
  apply bind_restores; [apply local_setitem_readonly | intros _].
  apply atomic_restores.
Qed.

(** ** What a descriptor resolves to *)

Lemma same_frame_refl d : same_frame d d.
Proof. by repeat split. Qed.

Lemma same_frame_trans d1 d2 d3 :
  same_frame d1 d2 → same_frame d2 d3 → same_frame d1 d3.
Proof. unfold same_frame. intuition congruence. Qed.

Lemma table_extends_refl T : table_extends T T.
Proof. exists []. rewrite app_nil_r. repeat split; [constructor | set_solver]. Qed.

Lemma Youtube_with_app s T1 T2 :
  Youtube_with s (T1 ++ T2) = Youtube_with s T1 ++ Youtube_with s T2.
Proof. apply filter_app. Qed.

Lemma Youtube_with_nil_iff s T :
  Youtube_with s T = [] ↔ s ∉ video_id <$> T.
Proof.
  unfold Youtube_with. split.
  - intros H (y & -> & Hy)%list_elem_of_fmap.
    by apply (filter_nil_not_elem_of _ _ y H).
  - intros H. destruct (filter _ T) as [|y l] eqn:E; [done|]. exfalso.
    assert (y ∈ filter (λ y, video_id y = s) T) as [<- Hy]%list_elem_of_filter
      by (rewrite E; left).
    by apply H, list_elem_of_fmap_2.
Qed.

Lemma table_extends_trans T1 T2 T3 :
  table_extends T1 T2 → table_extends T2 T3 → table_extends T1 T3.
Proof.
  intros (n1 & -> & Hd1 & Hf1) (n2 & -> & Hd2 & Hf2).
  exists (n1 ++ n2). split; [by rewrite app_assoc|]. split.
  - rewrite fmap_app. apply NoDup_app. split; [done|]. split; [|done].
    intros s Hs1 Hs2. apply list_elem_of_fmap in Hs2 as (y & -> & Hy).
    specialize (Hf2 y Hy). apply Youtube_with_nil_iff in Hf2.
    apply Hf2. rewrite fmap_app. apply elem_of_app. by right.
  - intros y [Hy|Hy]%elem_of_app; [by apply Hf1|].
    specialize (Hf2 y Hy). rewrite Youtube_with_app in Hf2.
    by apply app_eq_nil in Hf2 as [? _].
Qed.

Lemma table_extends_with s T T' y :
  table_extends T T' → Youtube_with s T = [y] → Youtube_with s T' = [y].
Proof.
  intros (new & -> & _ & Hf) Hy. rewrite Youtube_with_app, Hy.
  assert (Youtube_with s new = []) as ->; [|done].
  apply Youtube_with_nil_iff. intros (y' & -> & Hy')%list_elem_of_fmap.
  specialize (Hf y' Hy'). congruence.
Qed.

Lemma table_extends_NoDup T T' :
  table_extends T T' → NoDup (video_id <$> T) → NoDup (video_id <$> T').
Proof.
  intros (new & -> & Hd & Hf) HT. rewrite fmap_app. apply NoDup_app.
  split; [done|]. split; [|done].
  intros s Hs1 (y & -> & Hy)%list_elem_of_fmap.
  specialize (Hf y Hy). by apply Youtube_with_nil_iff in Hf.
Qed.

Lemma youtube_ref_mono T T' yv yo :
  table_extends T T' → youtube_ref T yv = Some yo → youtube_ref T' yv = Some yo.
Proof.
  intros HT. unfold youtube_ref. destruct (truthy yv); [|done].
  destruct (pop_var yv "youtube_id") as [[[] ?]|]; try done.
  destruct (Youtube_with s T) as [|y [|]] eqn:E; try done.
  by rewrite (table_extends_with _ _ _ _ HT E).
Qed.

Lemma descriptor_row_mono T T' F p idx id td t :
  table_extends T T' →
  descriptor_row T F p idx id td = Some t → descriptor_row T' F p idx id td = Some t.
Proof.
  intros HT. destruct td; simpl; try done.
  destruct (d !! "youtube") as [yv|]; simpl; [|done].
  destruct (youtube_ref T yv) as [yo|] eqn:E; simpl; [|done].
  by rewrite (youtube_ref_mono _ _ _ _ HT E).
Qed.

Lemma descriptor_rows_mono T T' F p idx id l ts :
  table_extends T T' →
  descriptor_rows T F p idx id l = Some ts → descriptor_rows T' F p idx id l = Some ts.
Proof.
  intros HT. revert idx id ts. induction l as [|td l IH]; intros idx id ts; simpl; [done|].
  destruct (descriptor_row T F p idx id td) as [t|] eqn:E; simpl; [|done].
  rewrite (descriptor_row_mono _ _ _ _ _ _ _ _ HT E); simpl.
  destruct (descriptor_rows T F p (idx + 1) (id + 1) l) as [ts'|] eqn:E'; simpl; [|done].
  by rewrite (IH _ _ _ E').
Qed.

(** ** The loop body, step by step *)

Lemma get_or_create_Ok v defaults d pk d' :
  Youtube_objects_get_or_create v defaults d = (Ok pk, d') →
  ∃ s, v = VStr s ∧
    ((∃ y, Youtube_with s (Youtube_objects d) = [y] ∧ youtube_pk y = pk ∧ d' = d) ∨
     (∃ m, Youtube_with s (Youtube_objects d) = [] ∧ defaults = VDict m ∧
           dom m ⊆ ({["title"; "views"; "duration"]} : gset string) ∧
           pk = next_Youtube_id d ∧
           d' = set_next_Youtube_id (next_Youtube_id d + 1)
                  (set_Youtube_objects
                     (λ l, l ++ [mkYoutube (next_Youtube_id d) s
                                   (m !! "title") (m !! "views") (m !! "duration")]) d))).
Proof.
  unfold Youtube_objects_get_or_create, Youtube_with.
  destruct v; try discriminate.
  destruct (filter _ (Youtube_objects d)) as [|y [|]] eqn:E.
  - destruct defaults; try discriminate. case_decide; [|discriminate].
    intros [= <- <-]. exists s. split; [done|]. right. eauto 10.
  - intros [= <- <-]. exists s. split; [done|]. left. eauto.
  - discriminate.
Qed.

Lemma get_or_create_Raise v defaults d e d' :
  Youtube_objects_get_or_create v defaults d = (Raise e, d') → d' = d.
Proof.
  unfold Youtube_objects_get_or_create.
  repeat case_match; congruence.
Qed.

Lemma local_setitem_dict k v m d :
  local_setitem k v (VDict m, d) = (Ok tt, (VDict (<[k := v]> m), d)).
Proof. reflexivity. Qed.

Lemma local_pop_default_dict k dflt m d :
  local_pop_default k dflt (VDict m, d) =
  (Ok (default dflt (m !! k)), (VDict (delete k m), d)).
Proof. reflexivity. Qed.

Lemma local_pop_dict k m d :
  local_pop k (VDict m, d) =
  match m !! k with
  | Some v => (Ok v, (VDict (delete k m), d))
  | None => (Raise (KeyError k), (VDict m, d))
  end.
Proof. unfold local_pop, pop; simpl. by destruct (m !! k). Qed.

Lemma youtube_block_eq (youtube_data : value) (s : value * DB) :
  ((if truthy youtube_data then
      '(youtube_id, youtube_data) ← pure (pop_var youtube_data "youtube_id");
      y ← orm (Youtube_objects_get_or_create youtube_id youtube_data);
      mret (Some y)
    else mret None) : M value (option Z)) s =
  let '(r, d') := youtube_block youtube_data s.2 in (r, (s.1, d')).
Proof.
  destruct s as [o d]. unfold youtube_block. destruct (truthy youtube_data); [|done].
  rewrite bind_eq. unfold pure at 1.
  destruct (pop_var youtube_data "youtube_id") as [[yid ydef]|e]; [|done].
  rewrite bind_eq. unfold orm at 1. simpl.
  by destruct (Youtube_objects_get_or_create yid ydef d) as [[y|e] d1].
Qed.

Lemma file_block_eq (file_data : value) (s : value * DB) :
  ((if truthy file_data then
      id ← pure (getitem file_data "id");
      f ← orm (File_objects_get id);
      mret (Some f)
    else mret None) : M value (option Z)) s =
  let '(r, d') := file_block file_data s.2 in (r, (s.1, d')).
Proof.
  destruct s as [o d]. unfold file_block. destruct (truthy file_data); [|done].
  rewrite bind_eq. unfold pure at 1.
  destruct (getitem file_data "id") as [id|e]; [|done].
  rewrite bind_eq. unfold orm at 1. simpl.
  by destruct (File_objects_get id d) as [[y|e] d1].
Qed.

Lemma sync_tracks_body_dict p idx m d :
  sync_tracks_body p idx (VDict m, d) =
  let m3 := delete "playlist" (delete "id" (<["order" := VInt idx]> m)) in
  match m !! "youtube" with
  | None => (Raise (KeyError "youtube"), (VDict m3, d))
  | Some yv =>
      match youtube_block yv d with
      | (Raise e, d1) => (Raise e, (VDict (delete "youtube" m3), d1))
      | (Ok yo, d1) =>
          match m !! "file" with
          | None => (Raise (KeyError "file"), (VDict (delete "youtube" m3), d1))
          | Some fv =>
              match file_block fv d1 with
              | (Raise e, d2) => (Raise e, (VDict (stripped idx m), d2))
              | (Ok fo, d2) =>
                  let '(r, d3) :=
                    Track_objects_create p.1 fo yo (VDict (stripped idx m)) d2 in
                  (r, (VDict (stripped idx m), d3))
              end
          end
      end
  end.
Proof.
  unfold sync_tracks_body.
  rewrite bind_eq, local_setitem_dict.
  rewrite bind_eq, local_pop_default_dict.
  rewrite bind_eq, local_pop_default_dict.
  rewrite bind_eq, local_pop_dict.
  rewrite !lookup_delete_ne, lookup_insert_ne by done.
  cbv zeta.
  destruct (m !! "youtube") as [yv|]; [|done].
  rewrite bind_eq, youtube_block_eq. cbn [fst snd].
  destruct (youtube_block yv d) as [[yo|e] d1]; [|done].
  rewrite bind_eq, local_pop_dict.
  rewrite !lookup_delete_ne, lookup_insert_ne by done.
  destruct (m !! "file") as [fv|]; [|done].
  rewrite bind_eq, file_block_eq. cbn [fst snd].
  destruct (file_block fv d1) as [[fo|e] d2]; [|done].
  reflexivity.
Qed.

Lemma sync_tracks_body_not_dict p idx td d :
  (∀ m, td ≠ VDict m) →
  sync_tracks_body p idx (td, d) = (Raise TypeError, (td, d)).
Proof. intros H. destruct td; try done. by destruct (H d0). Qed.

Lemma pop_var_Ok o k v o' :
  pop_var o k = Ok (v, o') ↔
  ∃ m, o = VDict m ∧ m !! k = Some v ∧ o' = VDict (delete k m).
Proof.
  unfold pop_var, pop. split.
  - destruct o; try discriminate.
    destruct (d !! k) eqn:E; [|discriminate]. intros [= <- <-]. eauto.
  - intros (m & -> & -> & ->). done.
Qed.

Lemma youtube_block_Raise yv d e d' :
  youtube_block yv d = (Raise e, d') → d' = d.
Proof.
  unfold youtube_block. destruct (truthy yv); [|discriminate].
  destruct (pop_var yv "youtube_id") as [[yid ydef]|]; [|congruence].
  destruct (Youtube_objects_get_or_create yid ydef d) as [[y|e'] d1] eqn:E;
    [discriminate|].
  intros [= _ <-]. by eapply get_or_create_Raise.
Qed.

Lemma youtube_block_Ok yv d yo d' :
  youtube_block yv d = (Ok yo, d') →
  youtube_ref (Youtube_objects d') yv = Some yo ∧
  table_extends (Youtube_objects d) (Youtube_objects d') ∧
  Track_objects d' = Track_objects d ∧
  next_Track_id d' = next_Track_id d ∧
  same_frame d d'.
Proof.
  unfold youtube_block, youtube_ref. destruct (truthy yv).
  2:{ intros [= <- <-]. split; [done|]. split; [apply table_extends_refl|].
      by repeat split. }
  destruct (pop_var yv "youtube_id") as [[yid ydef]|]; [|discriminate].
  destruct (Youtube_objects_get_or_create yid ydef d) as [[y|e'] d1] eqn:E;
    [|discriminate].
  intros [= <- <-].
  apply get_or_create_Ok in E as (s & -> & [(y' & Hy' & <- & ->)|(m & Hs & -> & Hm & -> & ->)]).
  - rewrite Hy'. split; [done|]. split; [apply table_extends_refl|]. by repeat split.
  - simpl. rewrite Youtube_with_app, Hs. simpl.
    unfold Youtube_with. rewrite filter_cons_True, filter_nil by done.
    split; [done|]. split; [|by repeat split].
    eexists [_]. split; [done|]. split.
    + apply NoDup_singleton.
    + by intros y ->%list_elem_of_singleton.
Qed.

(** What [youtube_block] adds to the table: nothing, or one row for an
    identifier the table did not have, with the columns of the descriptor's
    own [youtube] entry. *)
Lemma youtube_block_created yv d yo d' :
  youtube_block yv d = (Ok yo, d') →
  Youtube_objects d' = Youtube_objects d ∨
  ∃ ym s, yv = VDict ym ∧ ym !! "youtube_id" = Some (VStr s) ∧
          Youtube_with s (Youtube_objects d) = [] ∧
          Youtube_objects d' =
            Youtube_objects d ++
              [mkYoutube (next_Youtube_id d) s
                 (ym !! "title") (ym !! "views") (ym !! "duration")].
Proof.
  unfold youtube_block. destruct (truthy yv); [|intros [= <- <-]; by left].
  destruct (pop_var yv "youtube_id") as [[yid ydef]|] eqn:Ep; [|discriminate].
  destruct (Youtube_objects_get_or_create yid ydef d) as [[y|e'] d1] eqn:E;
    [|discriminate].
  intros [= <- <-].
  apply get_or_create_Ok in E as (s & -> & [(y' & Hy' & <- & ->)|(m & Hs & -> & Hm & -> & ->)]).
  - by left.
  - right. apply pop_var_Ok in Ep as (ym & -> & Hid & [= ->]).
    exists ym, s. repeat split; try done. simpl.
    by rewrite !lookup_delete_ne by done.
Qed.

Lemma youtube_block_of_ref yv d yo :
  youtube_ref (Youtube_objects d) yv = Some yo → youtube_block yv d = (Ok yo, d).
Proof.
  unfold youtube_block, youtube_ref. destruct (truthy yv); [|by intros [= <-]].
  destruct (pop_var yv "youtube_id") as [[[] ydef]|]; try discriminate.
  unfold Youtube_objects_get_or_create, Youtube_with.
  destruct (filter _ (Youtube_objects d)) as [|y [|]]; try discriminate.
  by intros [= <-].
Qed.

Lemma file_block_readonly fv d r d' : file_block fv d = (r, d') → d' = d.
Proof.
  unfold file_block, File_objects_get.
  repeat case_match; congruence.
Qed.

Lemma file_block_Ok fv d fo :
  file_block fv d = (Ok fo, d) ↔ file_ref (File_objects d) fv = Some fo.
Proof.
  unfold file_block, file_ref, File_objects_get, to_pk.
  destruct (truthy fv); [|split; congruence].
  destruct (getitem fv "id") as [[]|]; try (split; congruence).
  case_decide; split; congruence.
Qed.

Lemma Track_objects_create_Ok p fo yo m d d' :
  Track_objects_create p fo yo (VDict m) d = (Ok tt, d') ↔
  dom m ⊆ ({["order"; "type"]} : gset string) ∧
  d' = set_next_Track_id (next_Track_id d + 1)
         (set_Track_objects
            (λ l, l ++ [mkTrack (next_Track_id d) p (m !! "order") (m !! "type") fo yo]) d).
Proof.
  unfold Track_objects_create. case_decide; split.
  - by intros [= <-].
  - by intros [_ ->].
  - discriminate.
  - by intros [? _].
Qed.

Lemma stripped_order idx m : stripped idx m !! "order" = Some (VInt idx).
Proof.
  unfold stripped. by rewrite !lookup_delete_ne, lookup_insert_eq by done.
Qed.

Lemma stripped_type idx m : stripped idx m !! "type" = m !! "type".
Proof.
  unfold stripped. by rewrite !lookup_delete_ne, lookup_insert_ne by done.
Qed.


(** A successful pass of the loop body. *)
Lemma sync_tracks_body_Ok p idx td d td' d' :
  sync_tracks_body p idx (td, d) = (Ok tt, (td', d')) →
  ∃ m t, td = VDict m ∧ td' = VDict (stripped idx m) ∧
    descriptor_row (Youtube_objects d') (File_objects d) p.1 idx (next_Track_id d) td
      = Some t ∧
    table_extends (Youtube_objects d) (Youtube_objects d') ∧
    Track_objects d' = Track_objects d ++ [t] ∧
    next_Track_id d' = next_Track_id d + 1 ∧
    same_frame d d'.
Proof.
  destruct td as [| | | | | |m]; try discriminate.
  rewrite sync_tracks_body_dict. cbv zeta.
  destruct (m !! "youtube") as [yv|] eqn:Ey; [|discriminate].
  destruct (youtube_block yv d) as [[yo|e] d1] eqn:Eyb; [|discriminate].
  destruct (m !! "file") as [fv|] eqn:Ef; [|discriminate].
  destruct (file_block fv d1) as [[fo|e] d2] eqn:Efb; [|discriminate].
  pose proof (file_block_readonly _ _ _ _ Efb) as ->.
  destruct (Track_objects_create _ _ _ _ d1) as [[[]|e] d3] eqn:Et; [|discriminate].
  intros [= <- <-].
  apply Track_objects_create_Ok in Et as [Hdom ->].
  apply youtube_block_Ok in Eyb as (Hy & Hext & Htr & Hn & Hfr).
  apply file_block_Ok in Efb.
  exists m, (mkTrack (next_Track_id d) p.1 (Some (VInt idx)) (m !! "type") fo yo).
  split; [done|]. split; [done|]. simpl. rewrite Ey. simpl. rewrite Hy. simpl.
  rewrite Ef. simpl. destruct Hfr as (HU & HF & HP & HPP & Hn1 & Hn2).
  rewrite <-HF, Efb. cbn -[decide dom stripped].
  destruct (decide (dom (stripped idx m) ⊆ _)) as [_|?]; [|done].
  rewrite stripped_order, stripped_type, Hn, Htr.
  repeat split; done.
Qed.

(** Conversely: a descriptor whose references the database already holds
    goes through, and only a [Track] row is written. *)
Lemma sync_tracks_body_of_row p idx m d t :
  descriptor_row (Youtube_objects d) (File_objects d) p.1 idx (next_Track_id d)
    (VDict m) = Some t →
  sync_tracks_body p idx (VDict m, d) =
  (Ok tt, (VDict (stripped idx m),
           set_next_Track_id (next_Track_id d + 1)
             (set_Track_objects (λ l, l ++ [t]) d))).
Proof.
  intros Hrow. rewrite sync_tracks_body_dict. cbv zeta.
  cbn -[decide dom stripped] in Hrow.
  destruct (m !! "youtube") as [yv|] eqn:Ey; [|discriminate].
  cbn -[decide dom stripped] in Hrow.
  destruct (youtube_ref _ yv) as [yo|] eqn:Eyr; [|discriminate].
  cbn -[decide dom stripped] in Hrow.
  destruct (m !! "file") as [fv|] eqn:Ef; [|discriminate].
  cbn -[decide dom stripped] in Hrow.
  destruct (file_ref _ fv) as [fo|] eqn:Efr; [|discriminate].
  cbn -[decide dom stripped] in Hrow.
  destruct (decide (dom (stripped idx m) ⊆ _)) as [Hdom|?]; [|discriminate].
  injection Hrow as <-.
  rewrite (youtube_block_of_ref _ _ _ Eyr).
  apply file_block_Ok in Efr. rewrite Efr.
  unfold Track_objects_create.
  destruct (decide (dom (stripped idx m) ⊆ _)) as [_|?]; [|done].
  by rewrite stripped_order, stripped_type.
Qed.

(** ** The loop *)

Lemma descriptor_rows_length T F p idx id l ts :
  descriptor_rows T F p idx id l = Some ts → length ts = length l.
Proof.
  revert idx id ts. induction l as [|td l IH]; intros idx id ts; simpl.
  - by intros [= <-].
  - destruct (descriptor_row T F p idx id td) as [t|]; [|discriminate].
    cbn -[descriptor_row]. 
    destruct (descriptor_rows T F p (idx + 1) (id + 1) l) as [ts'|] eqn:E;
      [|discriminate].
    intros [= <-]. simpl. f_equal. eauto.
Qed.

Lemma descriptor_rows_lookup T F p idx id l ts (i : nat) td :
  descriptor_rows T F p idx id l = Some ts → l !! i = Some td →
  ∃ t, ts !! i = Some t ∧
       descriptor_row T F p (idx + Z.of_nat i) (id + Z.of_nat i) td = Some t.
Proof.
  revert idx id ts i. induction l as [|td0 l IH]; intros idx id ts i; simpl; [done|].
  destruct (descriptor_row T F p idx id td0) as [t0|] eqn:E0; [|discriminate].
  cbn -[descriptor_row].
  destruct (descriptor_rows T F p (idx + 1) (id + 1) l) as [ts'|] eqn:E;
    [|discriminate].
  intros [= <-]. destruct i as [|i]; simpl.
  - intros [= <-]. exists t0. by rewrite !Z.add_0_r.
  - intros Hi. destruct (IH _ _ _ _ E Hi) as (t & Ht & Hrow).
    exists t. split; [done|]. rewrite <-Hrow. f_equal; lia.
Qed.

(** A successful run of the loop of [sync_tracks]: every descriptor resolves
    against the final [Youtube] table, and the rows are appended in the
    order of the list. *)
Lemma enumerate_from_Ok p idx l d l' d' :
  enumerate_from (sync_tracks_body p) idx l d = (Ok tt, (l', d')) →
  ∃ ts,
    descriptor_rows (Youtube_objects d') (File_objects d) p.1 idx (next_Track_id d) l
      = Some ts ∧
    l' = stripped_list idx l ∧
    table_extends (Youtube_objects d) (Youtube_objects d') ∧
    Track_objects d' = Track_objects d ++ ts ∧
    next_Track_id d' = next_Track_id d + Z.of_nat (length l) ∧
    same_frame d d'.
Proof.
  revert idx d l' d'. induction l as [|td l IH]; intros idx d l' d'; simpl.
  - intros [= <- <-]. exists []. rewrite app_nil_r, Z.add_0_r.
    repeat split; try done. apply table_extends_refl.
  - destruct (sync_tracks_body p idx (td, d)) as [[[]|e] [td1 d1]] eqn:Eb;
      [|discriminate].
    destruct (enumerate_from _ (idx + 1) l d1) as [r [l2 d2]] eqn:El.
    intros [= -> <- <-].
    apply sync_tracks_body_Ok in Eb
      as (m & t & -> & -> & Hrow & Hext & Htr & Hn & Hfr).
    apply IH in El as (ts & Hrows & -> & Hext' & Htr' & Hn' & Hfr').
    exists (t :: ts).
    rewrite (descriptor_row_mono _ _ _ _ _ _ _ _ Hext' Hrow).
    cbn -[descriptor_row].
    pose proof Hfr as (? & HF & ?). rewrite HF, Hn in Hrows. rewrite Hrows.
    split; [done|]. split; [done|].
    split; [by eapply table_extends_trans|].
    split; [rewrite Htr', Htr, <-app_assoc; reflexivity|].
    split; [rewrite Hn', Hn; lia|].
    by eapply same_frame_trans.
Qed.

(** Conversely, when the database already holds every reference. *)
Lemma enumerate_from_of_rows p idx l d ts :
  descriptor_rows (Youtube_objects d) (File_objects d) p.1 idx (next_Track_id d) l
    = Some ts →
  enumerate_from (sync_tracks_body p) idx l d =
  (Ok tt, (stripped_list idx l,
           set_next_Track_id (next_Track_id d + Z.of_nat (length l))
             (set_Track_objects (λ x, x ++ ts) d))).
Proof.
  revert idx d ts. induction l as [|td l IH]; intros idx d ts.
  - intros [= <-]. simpl. do 2 f_equal.
    destruct d; unfold set_next_Track_id, set_Track_objects; simpl.
    by rewrite app_nil_r, Z.add_0_r.
  - cbn -[descriptor_row sync_tracks_body].
    destruct (descriptor_row _ _ _ _ _ td) as [t|] eqn:Erow; [|discriminate].
    cbn -[descriptor_row sync_tracks_body].
    destruct (descriptor_rows _ _ _ _ _ l) as [ts'|] eqn:Erows; [|discriminate].
    intros [= <-].
    destruct td as [| | | | | |m]; try discriminate.
    rewrite (sync_tracks_body_of_row _ _ _ _ _ Erow).
    rewrite (IH (idx + 1) _ ts') by done.
    do 2 f_equal.
    destruct d; unfold set_next_Track_id, set_Track_objects; simpl.
    f_equal; [by rewrite <-app_assoc | lia].
Qed.

(** ** [sync_tracks] *)

Lemma orm_eq {L A} (q : Query A) (o : L) d :
  orm q (o, d) = let '(r, d') := q d in (r, (o, d')).
Proof. reflexivity. Qed.

Lemma sync_tracks_list p l d :
  sync_tracks p (VList l, d) =
  match enumerate_from (sync_tracks_body p) 0 l
          (set_Track_objects (filter (λ t, track_playlist t ≠ p.1)) d) with
  | (Ok a, (l', d')) => (Ok a, (VList l', d'))
  | (Raise e, (l', _)) => (Raise e, (VList l', d))
  end.
Proof.
  unfold sync_tracks, atomic. rewrite bind_eq, orm_eq.
  unfold Track_objects_filter_delete, for_enumerate. cbn [fst snd].
  by destruct (enumerate_from _ _ _ _) as [[a|e] [l' d']].
Qed.

Lemma descriptor_rows_playlist T F p idx id l ts :
  descriptor_rows T F p idx id l = Some ts →
  Forall (λ t, track_playlist t = p) ts.
Proof.
  revert idx id ts. induction l as [|td l IH]; intros idx id ts.
  - intros [= <-]. constructor.
  - cbn -[descriptor_row].
    destruct (descriptor_row T F p idx id td) as [t|] eqn:E; [|discriminate].
    cbn -[descriptor_row].
    destruct (descriptor_rows T F p (idx + 1) (id + 1) l) as [ts'|] eqn:E';
      [|discriminate].
    intros [= <-]. constructor; [|eauto].
    destruct td; try discriminate. cbn -[decide dom stripped] in E.
    destruct (d !! "youtube"); [|discriminate]. cbn -[decide dom stripped] in E.
    destruct (youtube_ref T v); [|discriminate]. cbn -[decide dom stripped] in E.
    destruct (d !! "file"); [|discriminate]. cbn -[decide dom stripped] in E.
    destruct (file_ref F v0); [|discriminate]. cbn -[decide dom stripped] in E.
    destruct (decide _); [|discriminate]. by injection E as <-.
Qed.

Lemma filter_other_then_own (p : Z) (X ts : list Track) :
  Forall (λ t, track_playlist t = p) ts →
  filter (λ t, track_playlist t = p) (filter (λ t, track_playlist t ≠ p) X ++ ts) = ts.
Proof.
  intros Hts. rewrite filter_app.
  assert (filter (λ t, track_playlist t = p) (filter (λ t, track_playlist t ≠ p) X) = [])
    as ->.
  { induction X as [|x X IH]; [done|].
    destruct (decide (track_playlist x = p)).
    - by rewrite (filter_cons_False _ x X) by naive_solver.
    - rewrite (filter_cons_True _ x X) by done. by rewrite filter_cons_False. }
  simpl. induction Hts as [|t ts Ht Hts IH]; [done|].
  by rewrite filter_cons_True, IH.
Qed.

Lemma filter_other_idem (p : Z) (X ts : list Track) :
  Forall (λ t, track_playlist t = p) ts →
  filter (λ t, track_playlist t ≠ p) (filter (λ t, track_playlist t ≠ p) X ++ ts) =
  filter (λ t, track_playlist t ≠ p) X.
Proof.
  intros Hts. rewrite filter_app.
  assert (filter (λ t, track_playlist t ≠ p) ts = []) as ->.
  { induction Hts as [|t ts Ht Hts IH]; [done|].
    by rewrite filter_cons_False by naive_solver. }
  rewrite app_nil_r.
  induction X as [|x X IH]; [done|].
  destruct (decide (track_playlist x = p)).
  - by rewrite (filter_cons_False _ x X) by naive_solver.
  - rewrite (filter_cons_True _ x X) by done. rewrite filter_cons_True by done.
    by rewrite IH.
Qed.

(** A successful [sync_tracks] on a list of descriptors. *)
Lemma sync_tracks_Ok p l d o' d' :
  sync_tracks p (VList l, d) = (Ok tt, (o', d')) →
  ∃ ts,
    descriptor_rows (Youtube_objects d') (File_objects d) p.1 0 (next_Track_id d) l
      = Some ts ∧
    o' = VList (stripped_list 0 l) ∧
    table_extends (Youtube_objects d) (Youtube_objects d') ∧
    Track_objects d' = filter (λ t, track_playlist t ≠ p.1) (Track_objects d) ++ ts ∧
    playlist_tracks p.1 d' = ts ∧
    next_Track_id d' = next_Track_id d + Z.of_nat (length l) ∧
    same_frame d d'.
Proof.
  rewrite sync_tracks_list.
  destruct (enumerate_from _ _ _ _) as [[[]|e] [l' d1]] eqn:E; [|discriminate].
  intros [= <- <-].
  apply enumerate_from_Ok in E as (ts & Hrows & -> & Hext & Htr & Hn & Hfr).
  exists ts. simpl in *. repeat split; try done.
  - unfold playlist_tracks. rewrite Htr.
    apply filter_other_then_own. by eapply descriptor_rows_playlist.
  - apply Hfr.
  - apply Hfr.
  - apply Hfr.
  - apply Hfr.
  - apply Hfr.
  - apply Hfr.
Qed.

Lemma sync_tracks_of_rows p l d ts :
  descriptor_rows (Youtube_objects d) (File_objects d) p.1 0 (next_Track_id d) l
    = Some ts →
  sync_tracks p (VList l, d) =
  (Ok tt, (VList (stripped_list 0 l),
           set_next_Track_id (next_Track_id d + Z.of_nat (length l))
             (set_Track_objects
                (λ x, filter (λ t, track_playlist t ≠ p.1) x ++ ts) d))).
Proof.
  intros Hrows. rewrite sync_tracks_list.
  rewrite (enumerate_from_of_rows _ _ _ _ ts) by done.
  by destruct d.
Qed.

(** ** [set_playback_position] *)

Lemma filter_write_position_same u p pp ati (l : list PlaylistPosition) :
  filter (position_of u p) (write_position u p pp ati <$> l) =
  write_position u p pp ati <$> filter (position_of u p) l.
Proof.
  induction l as [|r l IH]; [done|]. rewrite fmap_cons.
  destruct (decide (position_of u p r)) as [Hr|Hr].
  - rewrite (filter_cons_True _ r l) by done. rewrite fmap_cons, <-IH.
    apply filter_cons_True. unfold write_position. by rewrite decide_True.
  - rewrite (filter_cons_False _ r l) by done. rewrite <-IH.
    apply filter_cons_False. unfold write_position. by rewrite decide_False.
Qed.

Lemma filter_write_position_other u p u' p' pp ati (l : list PlaylistPosition) :
  (u', p') ≠ (u, p) →
  filter (position_of u' p') (write_position u p pp ati <$> l) =
  filter (position_of u' p') l.
Proof.
  intros Hne. induction l as [|r l IH]; [done|]. rewrite fmap_cons.
  unfold write_position at 1. destruct (decide (position_of u p r)) as [[Hu Hp]|Hr].
  - rewrite !filter_cons_False; [done| |].
    + intros [? ?]. apply Hne. congruence.
    + intros [? ?]; simpl in *. apply Hne. congruence.
  - destruct (decide (position_of u' p' r)).
    + by rewrite !filter_cons_True, IH.
    + by rewrite !filter_cons_False.
Qed.

Lemma update_or_create_Raise u p pp ati d e d' :
  PlaylistPosition_objects_update_or_create u p pp ati d = (Raise e, d') → d' = d.
Proof.
  unfold PlaylistPosition_objects_update_or_create.
  destruct (filter _ _) as [|? [|]]; congruence.
Qed.

(** After a successful upsert the pair has exactly one row, holding the
    values passed; the rows of every other pair, and every other table, are
    as before. *)
Lemma update_or_create_Ok u p pp ati d d' :
  PlaylistPosition_objects_update_or_create u p pp ati d = (Ok tt, d') →
  (∃ r, positions_for u p d' = [r] ∧ position_user_id r = u ∧
        position_playlist r = p ∧ playback_position r = pp ∧
        active_track_idx r = ati) ∧
  (∀ u' p', (u', p') ≠ (u, p) → positions_for u' p' d' = positions_for u' p' d) ∧
  User_objects d' = User_objects d ∧ File_objects d' = File_objects d ∧
  Playlist_objects d' = Playlist_objects d ∧ Track_objects d' = Track_objects d ∧
  Youtube_objects d' = Youtube_objects d ∧
  next_Track_id d' = next_Track_id d ∧ next_Youtube_id d' = next_Youtube_id d ∧
  next_Playlist_id d' = next_Playlist_id d.
Proof.
  unfold PlaylistPosition_objects_update_or_create, positions_for.
  destruct (filter _ (PlaylistPosition_objects d)) as [|r [|]] eqn:E;
    [| |discriminate]; intros [= <-]; simpl.
  - split; [|split; [|done]].
    + eexists. rewrite filter_app, E. simpl.
      rewrite filter_cons_True by done. done.
    + intros u' p' Hne. rewrite filter_app.
      rewrite filter_cons_False, filter_nil, app_nil_r; [done|].
      intros [? ?]; simpl in *. apply Hne. congruence.
  - split; [|split; [|done]].
    + change (λ r0, if decide (position_of u p r0)
                    then mkPlaylistPosition (position_id r0) u p pp ati else r0)
        with (write_position u p pp ati).
      rewrite filter_write_position_same, E. simpl.
      assert (position_of u p r) as Hr.
      { assert (r ∈ filter (position_of u p) (PlaylistPosition_objects d)) as Hin
          by (rewrite E; left).
        by apply list_elem_of_filter in Hin as [? _]. }
      unfold write_position. rewrite decide_True by done. eauto 10.
    + intros u' p' Hne.
      by apply (filter_write_position_other u p u' p' pp ati).
Qed.

(** Under the invariant the upsert cannot fail. *)
Lemma update_or_create_total u p pp ati d :
  (length (positions_for u p d) ≤ 1)%nat →
  ∃ d', PlaylistPosition_objects_update_or_create u p pp ati d = (Ok tt, d').
Proof.
  unfold PlaylistPosition_objects_update_or_create, positions_for.
  destruct (filter _ _) as [|? [|]]; simpl; [eauto..|lia].
Qed.

(** Writing again the values the pair's single row already holds changes
    nothing. *)
Lemma update_or_create_same u p pp ati d r :
  positions_for u p d = [r] → playback_position r = pp → active_track_idx r = ati →
  PlaylistPosition_objects_update_or_create u p pp ati d = (Ok tt, d).
Proof.
  unfold PlaylistPosition_objects_update_or_create, positions_for.
  intros E Hpp Hati. rewrite E. f_equal.
  assert (∀ r', r' ∈ PlaylistPosition_objects d → position_of u p r' → r' = r) as Huniq.
  { intros r' Hin Hr'.
    assert (r' ∈ filter (position_of u p) (PlaylistPosition_objects d)) as Hf
      by (by apply list_elem_of_filter).
    rewrite E in Hf. by apply list_elem_of_singleton in Hf. }
  destruct d as [U F P T Y PP n1 n2 n3 n4].
  unfold set_PlaylistPosition_objects; simpl in *. f_equal.
  clear E. induction PP as [|r' PP IH]; [done|].
  rewrite fmap_cons. f_equal.
  - case_decide as Hr'; [|done].
    pose proof (Huniq r' (list_elem_of_here _ _) Hr') as ->.
    destruct Hr' as [Hu Hp]. destruct r; simpl in *. by subst.
  - apply IH. intros r'' Hin. apply Huniq. by apply list_elem_of_further.
Qed.

(** ** [update] *)

Lemma local_pop_default_Ok k dflt o d v s' :
  local_pop_default k dflt (o, d) = (Ok v, s') →
  ∃ m, o = VDict m ∧ v = default dflt (m !! k) ∧ s' = (VDict (delete k m), d).
Proof.
  unfold local_pop_default, pop_default; simpl.
  destruct o; try discriminate. intros [= <- <-]. eauto.
Qed.

Lemma local_pop_Ok k m d v s' :
  local_pop k (VDict m, d) = (Ok v, s') →
  m !! k = Some v ∧ s' = (VDict (delete k m), d).
Proof.
  rewrite local_pop_dict. destruct (m !! k); [|discriminate].
  by intros [= <- <-].
Qed.

Lemma local_getitem_Ok k m d v s' :
  local_getitem k (VDict m, d) = (Ok v, s') →
  m !! k = Some v ∧ s' = (VDict m, d).
Proof.
  unfold local_getitem, getitem; simpl. destruct (m !! k); [|discriminate].
  by intros [= <- <-].
Qed.

Lemma local_getitem_dict k m d :
  local_getitem k (VDict m, d) =
  match m !! k with
  | Some v => (Ok v, (VDict m, d))
  | None => (Raise (KeyError k), (VDict m, d))
  end.
Proof. unfold local_getitem, getitem; simpl. by destruct (m !! k). Qed.

Lemma call_eq {L L' A} (callee : M L' A) (arg : L') (o : L) d :
  call callee arg (o, d) =
  let '(r, (_, d')) := callee (arg, d) in (r, (o, d')).
Proof. reflexivity. Qed.

Lemma User_objects_get_Ok v d u d' :
  User_objects_get v d = (Ok u, d') ↔ v = VInt u ∧ u ∈ User_objects d ∧ d' = d.
Proof.
  unfold User_objects_get, to_pk. split.
  - destruct v; try discriminate. case_decide; [|discriminate].
    by intros [= <- <-].
  - intros (-> & Hu & ->). by rewrite decide_True.
Qed.

Lemma update_Ok instance vd d r vd' d' :
  update instance (vd, d) = (Ok r, (vd', d')) →
  ∃ m o', vd = VDict m ∧ vd' = VDict (update_popped m) ∧ update_steps m d d' r o'.
Proof.
  unfold update.
  intros (id & s1 & (m & -> & -> & ->)%local_pop_default_Ok & H)%bind_Ok.
  apply bind_Ok in H as (tracks_data & s2 & [Ht ->]%local_pop_Ok & H).
  apply bind_Ok in H as (owner & s3 & [Ho ->]%local_pop_Ok & H).
  apply bind_Ok in H as (owner_id & s4 & [= Hoid <-] & H).
  apply bind_Ok in H as (user & s5 & Hu & H).
  rewrite orm_eq in Hu.
  destruct (User_objects_get owner_id d) as [ru d0] eqn:Eu.
  injection Hu as -> <-.
  apply User_objects_get_Ok in Eu as (-> & Huser & ->).
  apply (proj1 (atomic_Ok _ _ _ _)) in H.
  apply bind_Ok in H as (qs & s6 & [= Hqs <-] & H).
  apply bind_Ok in H as (name & s7 & [Hname ->]%local_getitem_Ok & H).
  apply bind_Ok in H as (public & s8 & [Hpublic ->]%local_getitem_Ok & H).
  apply bind_Ok in H as ([] & s9 & [= <-] & H).
  apply bind_Ok in H as (playlist & s10 & Hget & H).
  rewrite orm_eq in Hget. unfold Playlist_objects_get in Hget.
  unfold Playlist_objects_filter in Hqs. rewrite Hqs in Hget.
  destruct (Playlist_objects _ !! qs) as [row|] eqn:Erow; [|discriminate].
  injection Hget as <- <-.
  apply bind_Ok in H as (pp & s11 & [Hpp ->]%local_pop_Ok & H).
  apply bind_Ok in H as (ati & s12 & [Hati ->]%local_pop_Ok & H).
  apply bind_Ok in H as ([] & s13 & Hpos & H).
  unfold set_playback_position in Hpos. rewrite orm_eq in Hpos. cbn [fst] in Hpos.
  destruct (PlaylistPosition_objects_update_or_create _ _ _ _ _) as [rp d2] eqn:Ep.
  injection Hpos as -> <-.
  apply bind_Ok in H as ([] & s14 & Hsync & [= <- ->]).
  rewrite call_eq in Hsync.
  destruct (sync_tracks _ _) as [rs [o' d3]] eqn:Es.
  injection Hsync as -> <-.
  rewrite !lookup_delete_ne in Ht by done.
  rewrite !lookup_delete_ne in Ho by done.
  rewrite !lookup_delete_ne in Hname by done.
  rewrite !lookup_delete_ne in Hpublic by done.
  rewrite !lookup_delete_ne in Hpp by done.
  rewrite !lookup_delete_ne in Hati by done.
  subst.
  exists m, o'. split; [done|]. split; [done|].
  destruct (default (VInt (-1)) (m !! "id")) eqn:Eid; try discriminate.
  injection Hqs as ->.
  by econstructor.
Qed.

Lemma update_of_steps instance m d d' r o' :
  update_steps m d d' r o' →
  update instance (VDict m, d) = (Ok r, (VDict (update_popped m), d')).
Proof.
  intros [id user tracks_data owner name public pp ati d2
            Hid Ht Ho Hu Huser Hname Hpublic Hpp Hati Hrow Hr Hpos Hsync].
  unfold update.
  rewrite bind_eq, local_pop_default_dict.
  rewrite bind_eq, local_pop_dict, lookup_delete_ne, Ht by done.
  rewrite bind_eq, local_pop_dict, !lookup_delete_ne, Ho by done.
  rewrite bind_eq. unfold pure at 1. rewrite Hu.
  rewrite bind_eq, orm_eq.
  rewrite (proj2 (User_objects_get_Ok (VInt user) d user d)) by done.
  apply atomic_Ok.
  rewrite bind_eq. unfold pure at 1, Playlist_objects_filter. rewrite Hid.
  cbn [to_pk].
  rewrite bind_eq, local_getitem_dict, !lookup_delete_ne, Hname by done.
  rewrite bind_eq, local_getitem_dict, !lookup_delete_ne, Hpublic by done.
  rewrite bind_eq, orm_eq.
  change (Playlist_update id name public d) with
    (Ok tt, (Playlist_update id name public d).2).
  cbv beta iota.
  rewrite bind_eq, orm_eq. unfold Playlist_objects_get. cbn [to_pk].
  rewrite Hrow.
  rewrite bind_eq, local_pop_dict, !lookup_delete_ne, Hpp by done.
  rewrite bind_eq, local_pop_dict, !lookup_delete_ne, Hati by done.
  rewrite bind_eq. unfold set_playback_position. rewrite orm_eq. cbn [fst].
  rewrite Hpos.
  destruct r as [rid row]; simpl in Hr, Hrow; subst rid.
  rewrite bind_eq, call_eq. cbn [snd]. rewrite Hsync.
  reflexivity.
Qed.

(** ** C1: atomicity of save *)

(** C1.  When a save fails, on the update path or on the create path and
    whatever raised (in particular the resolution of any track descriptor),
    the database after the call is the database before it: the playlist's
    tracks and its playback position rows are the ones it had. *)
Theorem save_atomic instance (vd : value) (d : DB) e (s' : value * DB) :
  update instance (vd, d) = (Raise e, s') ∨ create (vd, d) = (Raise e, s') →
  s'.2 = d ∧
  (∀ p, playlist_tracks p s'.2 = playlist_tracks p d) ∧
  (∀ u p, positions_for u p s'.2 = positions_for u p d).
Proof.
  intros H.
  assert (s'.2 = d) as ->; [|done].
  destruct H as [H|H].
  - apply (update_restores _ _ _ _ H).
  - apply (create_restores _ _ _ H).
Qed.

(** The second of three descriptors names a file that does not exist: the
    first one has been resolved and the old tracks deleted when the lookup
    raises, and nothing of it remains. *)
Lemma save_atomic_witness :
  (update Sample.playlist5 (Sample.dangling, Sample.db)).1
    = Raise (DoesNotExist "File") ∧
  (update Sample.playlist5 (Sample.dangling, Sample.db)).2.2 = Sample.db.
Proof.
  split; [vm_compute; reflexivity|].
  apply (save_atomic Sample.playlist5 Sample.dangling Sample.db
           (DoesNotExist "File")
           (update Sample.playlist5 (Sample.dangling, Sample.db)).2).
  left. vm_compute. reflexivity.
Defined.

(** ** C9: the owner is not written on update *)

Lemma update_steps_playlists m d d' r o' :
  update_steps m d d' r o' →
  ∃ name public,
    m !! "name" = Some name ∧ m !! "public" = Some public ∧
    Playlist_objects d' =
      alter (λ p, mkPlaylist (Some name) (playlist_owner p) (Some public)) r.1
        (Playlist_objects d).
Proof.
  intros [id user tracks_data owner name public pp ati d2
            Hid Ht Ho Hu Huser Hname Hpublic Hpp Hati Hrow Hr Hpos Hsync].
  exists name, public. split; [done|]. split; [done|].
  apply update_or_create_Ok in Hpos as (_ & _ & _ & _ & HP & _).
  assert (Playlist_objects d' = Playlist_objects d2) as ->.
  { unfold sync_tracks in Hsync. apply (proj1 (atomic_Ok _ _ _ _)) in Hsync.
    apply bind_Ok in Hsync as ([] & [o1 d3] & [= <- <-] & Hloop).
    unfold for_enumerate in Hloop. cbn [fst snd] in Hloop.
    destruct tracks_data; try discriminate.
    - destruct (enumerate_from _ _ (chars s) _) as [rl [l1 d4]] eqn:E.
      injection Hloop as -> _ <-.
      by apply enumerate_from_Ok in E as (_ & _ & _ & _ & _ & _ & _ & _ & ? & _).
    - destruct (enumerate_from _ _ l _) as [rl [l1 d4]] eqn:E.
      injection Hloop as -> _ <-.
      by apply enumerate_from_Ok in E as (_ & _ & _ & _ & _ & _ & _ & _ & ? & _).
    - destruct (enumerate_from _ _ _ _) as [rl [l1 d4]] eqn:E.
      injection Hloop as -> _ <-.
      by apply enumerate_from_Ok in E as (_ & _ & _ & _ & _ & _ & _ & _ & ? & _). }
  by rewrite HP, Hr.
Qed.

(** C9.  A successful update writes the submitted name and visibility into
    the row of the playlist it addresses and leaves every other column of
    every playlist alone: each row keeps its owner, whatever owner the
    validated data carry, and no row appears or disappears. *)
Theorem update_keeps_owner instance (m : gmap string value) (d : DB) r
    (vd' : value) (d' : DB) :
  update instance (VDict m, d) = (Ok r, (vd', d')) →
  ∃ name public,
    m !! "name" = Some name ∧ m !! "public" = Some public ∧
    (∀ z, Playlist_objects d' !! z =
          (if decide (z = r.1)
           then (λ p, mkPlaylist (Some name) (playlist_owner p) (Some public))
                  <$> Playlist_objects d !! z
           else Playlist_objects d !! z)) ∧
    (∀ z, playlist_owner <$> Playlist_objects d' !! z
          = playlist_owner <$> Playlist_objects d !! z).
Proof.
  intros (m' & o' & [= <-] & _ & Hsteps)%update_Ok.
  apply update_steps_playlists in Hsteps as (name & public & Hn & Hp & HP).
  exists name, public. split; [done|]. split; [done|].
  assert (∀ z, Playlist_objects d' !! z =
          (if decide (z = r.1)
           then (λ p, mkPlaylist (Some name) (playlist_owner p) (Some public))
                  <$> Playlist_objects d !! z
           else Playlist_objects d !! z)) as Hrows.
  { intros z. rewrite HP. case_decide as Hz.
    - subst z. by rewrite lookup_alter_eq.
    - by rewrite lookup_alter_ne. }
  split; [done|].
  intros z. rewrite Hrows. case_decide; [|done].
  by destruct (Playlist_objects d !! z).
Qed.

(** The owner in the validated data is user 8; playlist 5 stays with
    user 7. *)
Lemma update_keeps_owner_witness :
  playlist_owner <$>
    Playlist_objects
      (update Sample.playlist5 (Sample.other_owner, Sample.db)).2.2 !! 5
  = Some (Some 7).
Proof.
  destruct (update_keeps_owner Sample.playlist5
              (list_to_map Sample.other_owner_items) Sample.db
              Sample.playlist5_new
              (update Sample.playlist5 (Sample.other_owner, Sample.db)).2.1
              (update Sample.playlist5 (Sample.other_owner, Sample.db)).2.2)
    as (name & public & _ & _ & _ & Howner).
  - vm_compute. reflexivity.
  - rewrite Howner. vm_compute. reflexivity.
Defined.

(** ** C7: the playback position is upserted *)

Lemma set_playback_position_eq {L} playlist ati pp user (o : L) d :
  set_playback_position playlist ati pp user (o, d) =
  let '(r, d') :=
    PlaylistPosition_objects_update_or_create user playlist.1 pp ati d in
  (r, (o, d')).
Proof. reflexivity. Qed.

Lemma set_playback_position_unique playlist ati pp user d :
  positions_unique d →
  ∃ d', set_playback_position playlist ati pp user (tt, d) = (Ok tt, (tt, d')) ∧
        positions_unique d' ∧
        ∃ r, positions_for user playlist.1 d' = [r] ∧
             active_track_idx r = ati ∧ playback_position r = pp.
Proof.
  intros Hd. rewrite set_playback_position_eq.
  destruct (update_or_create_total user playlist.1 pp ati d (Hd _ _)) as [d' Hd'].
  rewrite Hd'. exists d'. split; [done|].
  apply update_or_create_Ok in Hd' as ((r & Hr & _ & _ & Hpp & Hati) & Hother & _).
  split; [|eauto].
  intros u p. destruct (decide ((u, p) = (user, playlist.1))) as [[= -> ->]|Hne].
  - by rewrite Hr.
  - rewrite Hother by done. apply Hd.
Qed.

(** C7.  Starting from a table with at most one row per (playlist, user)
    pair (the empty table, say), any sequence of [set_playback_position]
    calls leaves at most one row per pair; and after two calls in a row for
    the same pair the pair has exactly one row, holding the values of the
    second call. *)
Theorem position_upsert (d : DB) :
  positions_unique d →
  (∀ calls, positions_unique (set_positions calls d)) ∧
  (∀ playlist user a1 p1 a2 p2,
     ∃ r, positions_for user playlist.1
            (set_positions [(playlist, a1, p1, user); (playlist, a2, p2, user)] d)
          = [r] ∧
          active_track_idx r = a2 ∧ playback_position r = p2).
Proof.
  intros Hd. split.
  - intros calls. revert d Hd.
    induction calls as [|[[[playlist ati] pp] user] calls IH]; intros d Hd; [done|].
    simpl. apply IH.
    destruct (set_playback_position_unique playlist ati pp user d Hd)
      as (d' & -> & Hd' & _).
    done.
  - intros playlist user a1 p1 a2 p2. simpl.
    destruct (set_playback_position_unique playlist a1 p1 user d Hd)
      as (d1 & -> & Hd1 & _).
    cbn [snd].
    destruct (set_playback_position_unique playlist a2 p2 user d1 Hd1)
      as (d2 & -> & _ & Hr).
    done.
Qed.

(** Two calls for user 7 in playlist 5, on a table that already has a row
    for the pair. *)
Lemma position_upsert_witness :
  positions_unique Sample.db ∧
  ∃ r, positions_for 7 Sample.playlist5.1
         (set_positions [(Sample.playlist5, VInt 2, VFloat 5 0, 7);
                         (Sample.playlist5, VInt 4, VFloat 9 0, 7)] Sample.db)
       = [r] ∧
       active_track_idx r = VInt 4 ∧ playback_position r = VFloat 9 0.
Proof.
  assert (positions_unique Sample.db) as Hd.
  { intros u p. unfold positions_for. simpl.
    rewrite filter_cons, filter_nil. case_decide; simpl; lia. }
  split; [exact Hd|].
  apply (proj2 (position_upsert Sample.db Hd)).
Defined.

(** ** C3: the playback state stored by [update] *)

Lemma sync_tracks_strings p idx l d s' :
  Forall (λ x, ∃ s, x = VStr s) l →
  enumerate_from (sync_tracks_body p) idx l d = (Ok tt, s') → l = [].
Proof.
  intros Hl. destruct Hl as [|x l [s ->] _]; [done|].
  simpl. discriminate.
Qed.

Lemma chars_strings s : Forall (λ x, ∃ s, x = VStr s) (chars s).
Proof. induction s; simpl; constructor; eauto. Qed.

(** [sync_tracks] on an object that is not a list: it can only succeed when
    the object yields nothing, and then it deletes the playlist's tracks
    whatever the database. *)
Lemma sync_tracks_not_list p o d o' d' :
  (∀ l, o ≠ VList l) →
  sync_tracks p (o, d) = (Ok tt, (o', d')) →
  ∀ d0, sync_tracks p (o, d0) =
        (Ok tt, (o, set_Track_objects (filter (λ t, track_playlist t ≠ p.1)) d0)).
Proof.
  intros Ho H d0. unfold sync_tracks in *.
  apply (proj1 (atomic_Ok _ _ _ _)) in H. apply atomic_Ok.
  rewrite bind_eq, orm_eq in *. unfold Track_objects_filter_delete in *.
  unfold for_enumerate in *. cbn [fst snd] in *.
  destruct o; try discriminate.
  - destruct (enumerate_from _ _ (chars s) _) as [rl [l1 d4]] eqn:E.
    injection H as -> _ _.
    apply sync_tracks_strings in E; [|apply chars_strings]. by rewrite E.
  - by destruct (Ho l).
  - destruct (enumerate_from _ _ _ _) as [rl [l1 d4]] eqn:E.
    injection H as -> _ _.
    apply sync_tracks_strings in E.
    + by rewrite E.
    + apply Forall_fmap, Forall_true. eauto.
Qed.

(** [sync_tracks] writes to [Track] and [Youtube] only. *)
Lemma sync_tracks_frame p o d o' d' :
  sync_tracks p (o, d) = (Ok tt, (o', d')) →
  same_frame d d' ∧ table_extends (Youtube_objects d) (Youtube_objects d').
Proof.
  intros H.
  assert ((∃ l, o = VList l) ∨ ∀ l, o ≠ VList l) as [[l ->]|Hn]
    by (destruct o; eauto).
  - apply sync_tracks_Ok in H as (ts & _ & _ & ? & _ & _ & _ & ?). done.
  - pose proof (sync_tracks_not_list p o d o' d') as H'.
    rewrite H' in H by done. injection H as _ <-.
    split; [by repeat split | apply table_extends_refl].
Qed.

(** What a successful [update] stores for the (playlist, user) pair: one
    row, whose [playback_position] column holds the submitted active track
    index and whose [active_track_idx] column holds the submitted playback
    position. *)
Lemma update_position_swapped instance (m : gmap string value) d r vd' d' :
  update instance (VDict m, d) = (Ok r, (vd', d')) →
  ∃ owner user a p row,
    m !! "owner" = Some owner ∧ getitem owner "id" = Ok (VInt user) ∧
    m !! "get_active_track_idx" = Some a ∧
    m !! "get_playback_position" = Some p ∧
    positions_for user r.1 d' = [row] ∧
    active_track_idx row = p ∧ playback_position row = a.
Proof.
  intros (m' & o' & [= <-] & _ & Hsteps)%update_Ok.
  destruct Hsteps as [id user tracks_data owner name public pp ati d2
            Hid Ht Ho Hu Huser Hname Hpublic Hpp Hati Hrow Hr Hpos Hsync].
  apply update_or_create_Ok in Hpos as ((row & Hrow' & _ & _ & Hp & Ha) & _).
  apply sync_tracks_frame in Hsync as [(_ & _ & _ & HPP & _) _].
  exists owner, user, ati, pp, row. repeat split; try done.
  unfold positions_for in *. by rewrite HPP, Hr.
Qed.

(** C3 (the code departs from it).  Saving playlist 5 for user 7 with
    active track 1 at 42.5 seconds through [update] stores the row with
    [active_track_idx = 42.5] and [playback_position = 1]: the two values
    arrive at [set_playback_position] in each other's place. *)
Theorem update_stores_swapped_position :
  positions_for 7 5
    (update Sample.playlist5
       (Sample.playlist 5 [Sample.file_track 0 3], Sample.db)).2.2
  = [{| position_id := 1; position_user_id := 7; position_playlist := 5;
        playback_position := VInt 1;
        active_track_idx := VFloat 85 (-1) |}].
Proof. vm_compute. reflexivity. Qed.

(** The create path passes the same two values in the order of the
    signature: the new playlist (identity 7) gets the row as submitted. *)
Lemma create_stores_position :
  positions_for 7 7
    (create (Sample.playlist (-1) [Sample.file_track 0 3], Sample.db)).2.2
  = [{| position_id := 2; position_user_id := 7; position_playlist := 7;
        playback_position := VFloat 85 (-1);
        active_track_idx := VInt 1 |}].
Proof. vm_compute. reflexivity. Qed.

(** ** C2: the order of the tracks *)

Lemma descriptor_row_columns T F p idx id td t :
  descriptor_row T F p idx id td = Some t →
  track_id t = id ∧ track_playlist t = p ∧ track_order t = Some (VInt idx).
Proof.
  destruct td as [| | | | | |m]; try discriminate.
  cbn -[decide dom stripped].
  destruct (m !! "youtube"); [|discriminate]. cbn -[decide dom stripped].
  destruct (youtube_ref T v); [|discriminate]. cbn -[decide dom stripped].
  destruct (m !! "file"); [|discriminate]. cbn -[decide dom stripped].
  destruct (file_ref F v0); [|discriminate]. cbn -[decide dom stripped].
  destruct (decide _); [|discriminate]. by intros [= <-].
Qed.

Lemma descriptor_rows_order T F p idx id l ts :
  descriptor_rows T F p idx id l = Some ts →
  track_order <$> ts = (λ i, Some (VInt i)) <$> seqZ idx (Z.of_nat (length l)).
Proof.
  revert idx id ts. induction l as [|td l IH]; intros idx id ts.
  - intros [= <-]. by rewrite seqZ_nil.
  - cbn -[descriptor_row].
    destruct (descriptor_row T F p idx id td) as [t|] eqn:E; [|discriminate].
    cbn -[descriptor_row].
    destruct (descriptor_rows T F p (idx + 1) (id + 1) l) as [ts'|] eqn:E';
      [|discriminate].
    intros [= <-]. rewrite seqZ_cons by lia. rewrite !fmap_cons.
    apply descriptor_row_columns in E as (_ & _ & ->).
    f_equal. rewrite (IH _ _ _ E'). do 2 f_equal; lia.
Qed.

Lemma descriptor_row_id T F p idx id id' td t :
  descriptor_row T F p idx id td = Some t → id' = track_id t →
  descriptor_row T F p idx id' td = Some t.
Proof.
  intros H ->. by apply descriptor_row_columns in H as H'; destruct H' as [<- _].
Qed.

(** After a successful [sync_tracks] the playlist's tracks are, in table
    order, the rows of the descriptors in list order, numbered from 0. *)
Lemma sync_tracks_order p l d o' d' :
  sync_tracks p (VList l, d) = (Ok tt, (o', d')) →
  track_order <$> playlist_tracks p.1 d'
    = (λ i, Some (VInt i)) <$> seqZ 0 (Z.of_nat (length l)) ∧
  ∀ (i : nat) td, l !! i = Some td →
    ∃ t, playlist_tracks p.1 d' !! i = Some t ∧
         descriptor_row (Youtube_objects d') (File_objects d') p.1
           (Z.of_nat i) (track_id t) td = Some t.
Proof.
  intros (ts & Hrows & _ & _ & _ & -> & _ & Hfr)%sync_tracks_Ok.
  split; [by eapply descriptor_rows_order|].
  intros i td Hi.
  destruct (descriptor_rows_lookup _ _ _ _ _ _ _ _ _ Hrows Hi) as (t & Ht & Hrow).
  exists t. split; [done|].
  destruct Hfr as (_ & -> & _).
  eapply descriptor_row_id; [done|].
  by apply descriptor_row_columns in Hrow as [-> _].
Qed.

(** C2.  After a successful save of validated data whose track list is [l],
    the playlist's persisted tracks carry the order values 0, 1, ...,
    [length l - 1] in table order, and the track at position [i] is the row
    of the [i]-th submitted descriptor (its type and its file and youtube
    references, with order [i]); an [order] entry inside a descriptor plays
    no part. *)
Theorem save_preserves_order instance (m : gmap string value) (d : DB) r
    (vd' : value) (d' : DB) (l : list value) :
  update instance (VDict m, d) = (Ok r, (vd', d')) →
  m !! "tracks" = Some (VList l) →
  track_order <$> playlist_tracks r.1 d'
    = (λ i, Some (VInt i)) <$> seqZ 0 (Z.of_nat (length l)) ∧
  ∀ (i : nat) td, l !! i = Some td →
    ∃ t, playlist_tracks r.1 d' !! i = Some t ∧
         descriptor_row (Youtube_objects d') (File_objects d') r.1
           (Z.of_nat i) (track_id t) td = Some t.
Proof.
  intros (m' & o' & [= <-] & _ & Hsteps)%update_Ok Hl.
  destruct Hsteps as [id user tracks_data owner name public pp ati d2
            Hid Ht Ho Hu Huser Hname Hpublic Hpp Hati Hrow Hr Hpos Hsync].
  rewrite Hl in Ht. injection Ht as <-.
  by eapply sync_tracks_order.
Qed.

(** Three descriptors that all claim order 9 are stored with orders 0, 1
    and 2. *)
Lemma save_preserves_order_witness :
  track_order <$>
    playlist_tracks Sample.playlist5_new.1
      (update Sample.playlist5 (VDict (list_to_map Sample.nines_items), Sample.db)).2.2
  = [Some (VInt 0); Some (VInt 1); Some (VInt 2)].
Proof.
  apply (save_preserves_order Sample.playlist5
           (list_to_map Sample.nines_items) Sample.db Sample.playlist5_new
           (update Sample.playlist5
              (VDict (list_to_map Sample.nines_items), Sample.db)).2.1
           (update Sample.playlist5
              (VDict (list_to_map Sample.nines_items), Sample.db)).2.2
           Sample.nines).
  - vm_compute. reflexivity.
  - vm_compute. reflexivity.
Defined.

(** ** C8: saving twice *)

Lemma descriptor_row_renumber T F p idx id id' td t :
  descriptor_row T F p idx id td = Some t →
  ∃ t', descriptor_row T F p idx id' td = Some t' ∧
        track_content t' = track_content t ∧ track_id t' = id'.
Proof.
  destruct td as [| | | | | |m]; try discriminate.
  cbn -[decide dom stripped].
  destruct (m !! "youtube"); [|discriminate]. cbn -[decide dom stripped].
  destruct (youtube_ref T v); [|discriminate]. cbn -[decide dom stripped].
  destruct (m !! "file"); [|discriminate]. cbn -[decide dom stripped].
  destruct (file_ref F v0); [|discriminate]. cbn -[decide dom stripped].
  destruct (decide _); [|discriminate]. intros [= <-]. eauto.
Qed.

Lemma descriptor_rows_renumber T F p idx id id' l ts :
  descriptor_rows T F p idx id l = Some ts →
  ∃ ts', descriptor_rows T F p idx id' l = Some ts' ∧
         track_content <$> ts' = track_content <$> ts.
Proof.
  revert idx id id' ts. induction l as [|td l IH]; intros idx id id' ts.
  - intros [= <-]. by exists [].
  - cbn -[descriptor_row].
    destruct (descriptor_row T F p idx id td) as [t|] eqn:E; [|discriminate].
    cbn -[descriptor_row].
    destruct (descriptor_rows T F p (idx + 1) (id + 1) l) as [ts0|] eqn:E';
      [|discriminate].
    intros [= <-].
    destruct (descriptor_row_renumber _ _ _ _ _ id' _ _ E) as (t' & -> & Ht' & _).
    destruct (IH _ _ (id' + 1) _ E') as (ts' & -> & Hts').
    exists (t' :: ts'). split; [done|]. by rewrite !fmap_cons, Ht', Hts'.
Qed.

Lemma descriptor_rows_ids T F p idx id l ts (i : nat) t :
  descriptor_rows T F p idx id l = Some ts → ts !! i = Some t →
  track_id t = id + Z.of_nat i.
Proof.
  revert idx id ts i. induction l as [|td l IH]; intros idx id ts i.
  - by intros [= <-].
  - cbn -[descriptor_row].
    destruct (descriptor_row T F p idx id td) as [t0|] eqn:E; [|discriminate].
    cbn -[descriptor_row].
    destruct (descriptor_rows T F p (idx + 1) (id + 1) l) as [ts0|] eqn:E';
      [|discriminate].
    intros [= <-]. destruct i as [|i]; simpl.
    + intros [= <-]. apply descriptor_row_columns in E as [-> _]. lia.
    + intros Hi. rewrite (IH _ _ _ _ E' Hi). lia.
Qed.

Lemma filter_other_twice (p : Z) (X : list Track) :
  filter (λ t, track_playlist t ≠ p) (filter (λ t, track_playlist t ≠ p) X)
  = filter (λ t, track_playlist t ≠ p) X.
Proof.
  pose proof (filter_other_idem p X [] (Forall_nil_2 _)) as H.
  by rewrite app_nil_r in H.
Qed.

(** Running [sync_tracks] again on the same input, right after a run that
    succeeded: it succeeds again, creates no [Youtube] row, and leaves the
    [Track] table with the same contents under new primary keys. *)
Lemma sync_tracks_twice p o d o' d' :
  sync_tracks p (o, d) = (Ok tt, (o', d')) →
  ∃ d'', sync_tracks p (o, d') = (Ok tt, (o', d'')) ∧
         Youtube_objects d'' = Youtube_objects d' ∧
         next_Youtube_id d'' = next_Youtube_id d' ∧
         same_frame d' d'' ∧
         track_content <$> Track_objects d'' = track_content <$> Track_objects d' ∧
         (∀ t1 t2, t1 ∈ playlist_tracks p.1 d' → t2 ∈ playlist_tracks p.1 d'' →
                   track_id t1 < track_id t2).
Proof.
  intros H.
  assert ((∃ l, o = VList l) ∨ ∀ l, o ≠ VList l) as [[l ->]|Hn]
    by (destruct o; eauto).
  - apply sync_tracks_Ok in H as (ts & Hrows & -> & Hext & Htr & Hpt & Hn & Hfr).
    pose proof Hfr as (_ & HF & _). rewrite <-HF in Hrows.
    destruct (descriptor_rows_renumber _ _ _ _ _ (next_Track_id d') _ _ Hrows)
      as (ts' & Hrows' & Hts').
    eexists. split; [by apply sync_tracks_of_rows|].
    split; [by destruct d'|]. split; [by destruct d'|].
    split; [by destruct d'|]. split.
    + destruct d'; simpl in *. rewrite Htr.
      rewrite filter_other_idem by (by eapply descriptor_rows_playlist).
      by rewrite !fmap_app, Hts'.
    + intros t1 t2. unfold playlist_tracks at 2.
      replace (Track_objects _) with
        (filter (λ t, track_playlist t ≠ p.1) (Track_objects d') ++ ts')
        by (by destruct d').
      rewrite filter_other_then_own by (by eapply descriptor_rows_playlist).
      rewrite Hpt.
      intros (i1 & Hi1)%list_elem_of_lookup (i2 & Hi2)%list_elem_of_lookup.
      rewrite (descriptor_rows_ids _ _ _ _ _ _ _ _ _ Hrows Hi1).
      rewrite (descriptor_rows_ids _ _ _ _ _ _ _ _ _ Hrows' Hi2).
      apply lookup_lt_Some in Hi1.
      apply descriptor_rows_length in Hrows. lia.
  - pose proof (sync_tracks_not_list p o d o' d' Hn H) as H'.
    rewrite H' in H. injection H as <- <-.
    eexists. split; [apply H'|].
    split; [done|]. split; [done|]. split; [by repeat split|]. split.
    + simpl. by rewrite filter_other_twice.
    + intros t1 t2. unfold playlist_tracks at 1. simpl.
      pose proof (filter_other_then_own p.1 (Track_objects d) [] (Forall_nil_2 _)) as E.
      rewrite app_nil_r in E. rewrite E.
      by intros ?%elem_of_nil.
Qed.

(** C8, for a playlist that exists.  Saving the same validated data to the
    same playlist a second time, right after an [update] that succeeded,
    succeeds with the same result and leaves the same persisted state: the
    same playlists, positions and external entries, and a [Track] table with
    the same rows in the same order up to their primary keys, which are all
    new for the playlist saved. *)
Theorem resave_idempotent instance (m : gmap string value) (d : DB) r
    (vd1 : value) (d1 : DB) :
  update instance (VDict m, d) = (Ok r, (vd1, d1)) →
  ∃ d2, update instance (VDict m, d1) = (Ok r, (vd1, d2)) ∧
        track_content <$> Track_objects d2 = track_content <$> Track_objects d1 ∧
        Youtube_objects d2 = Youtube_objects d1 ∧
        Playlist_objects d2 = Playlist_objects d1 ∧
        PlaylistPosition_objects d2 = PlaylistPosition_objects d1 ∧
        (∀ t1 t2, t1 ∈ playlist_tracks r.1 d1 → t2 ∈ playlist_tracks r.1 d2 →
                  track_id t1 < track_id t2).
Proof.
  intros (m' & o' & [= <-] & -> & Hsteps)%update_Ok.
  destruct Hsteps as [id user tracks_data owner name public pp ati d0
            Hid Ht Ho Hu Huser Hname Hpublic Hpp Hati Hrow Hr Hpos Hsync].
  destruct (sync_tracks_twice _ _ _ _ _ Hsync)
    as (d2 & Hsync2 & HY & _ & Hfr2 & Htr2 & Hids).
  pose proof (sync_tracks_frame _ _ _ _ _ Hsync) as [(HU & _ & HP & HPP & _) _].
  pose proof (update_or_create_Ok _ _ _ _ _ _ Hpos)
    as ((row & Hrow0 & _ & _ & Hrpp & Hrati) & _ & HU0 & _ & HP0 & _).
  assert ((Playlist_update id name public d1).2 = d1) as Hsame.
  { unfold Playlist_update. cbn [snd].
    assert (alter (λ p, mkPlaylist (Some name) (playlist_owner p) (Some public))
              id (Playlist_objects d1) = Playlist_objects d1) as E.
    { rewrite HP, HP0. simpl. apply map_eq. intros z.
      destruct (decide (z = id)) as [->|].
      - rewrite !lookup_alter_eq. by destruct (Playlist_objects d !! id).
      - by rewrite !lookup_alter_ne. }
    destruct d1; unfold set_Playlist_objects; simpl in *. by rewrite E. }
  exists d2. split.
  - apply update_of_steps with (o' := o').
    apply (UpdateSteps m d1 d2 r o' id user tracks_data owner name public pp ati d1);
      try done.
    + by rewrite HU, HU0.
    + rewrite Hsame, HP, HP0. apply Hrow.
    + rewrite Hsame. eapply update_or_create_same; [|done..].
      unfold positions_for in *. by rewrite HPP.
  - destruct Hfr2 as (_ & _ & ? & ? & _). done.
Qed.

(** Saving playlist 5 twice with three descriptors: the second save finds
    the database of the first and leaves the same track contents. *)
Lemma resave_idempotent_witness :
  ∃ d2,
    update Sample.playlist5 (VDict (list_to_map Sample.nines_items),
      (update Sample.playlist5
         (VDict (list_to_map Sample.nines_items), Sample.db)).2.2)
    = (Ok Sample.playlist5_new,
       ((update Sample.playlist5
           (VDict (list_to_map Sample.nines_items), Sample.db)).2.1, d2)) ∧
    track_content <$> Track_objects d2 =
    track_content <$>
      Track_objects
        (update Sample.playlist5
           (VDict (list_to_map Sample.nines_items), Sample.db)).2.2.
Proof.
  destruct (resave_idempotent Sample.playlist5
              (list_to_map Sample.nines_items) Sample.db Sample.playlist5_new
              (update Sample.playlist5
                 (VDict (list_to_map Sample.nines_items), Sample.db)).2.1
              (update Sample.playlist5
                 (VDict (list_to_map Sample.nines_items), Sample.db)).2.2)
    as (d2 & H2 & Htr & _).
  - vm_compute. reflexivity.
  - exists d2. split; [exact H2 | exact Htr].
Defined.

(** C8 as stated, for every descriptor, fails for the descriptor of a new
    playlist: [create] run twice in a row on the same validated data makes
    playlist 7 and then playlist 8.  The second save returns another
    playlist than the first, and the persisted state after it is not the
    state after the first: there is one more playlist, one more track set
    and one more position row. *)
Lemma resave_new_playlist_counterexample :
  (create (Sample.playlist (-1) [Sample.file_track 0 3], Sample.db)).1
  = Ok (7, mkPlaylist (Some (VStr "new")) (Some 7) (Some (VBool true))) ∧
  (create (Sample.playlist (-1) [Sample.file_track 0 3],
     (create (Sample.playlist (-1) [Sample.file_track 0 3], Sample.db)).2.2)).1
  = Ok (8, mkPlaylist (Some (VStr "new")) (Some 7) (Some (VBool true))) ∧
  track_content <$>
    Track_objects
      (create (Sample.playlist (-1) [Sample.file_track 0 3], Sample.db)).2.2
  = [(5, Some (VInt 0), Some (VInt 0), Some 4, None);
     (6, Some (VInt 0), Some (VInt 0), Some 3, None);
     (7, Some (VInt 0), Some (VInt 0), Some 3, None)] ∧
  track_content <$>
    Track_objects
      (create (Sample.playlist (-1) [Sample.file_track 0 3],
         (create (Sample.playlist (-1) [Sample.file_track 0 3], Sample.db)).2.2)).2.2
  = [(5, Some (VInt 0), Some (VInt 0), Some 4, None);
     (6, Some (VInt 0), Some (VInt 0), Some 3, None);
     (7, Some (VInt 0), Some (VInt 0), Some 3, None);
     (8, Some (VInt 0), Some (VInt 0), Some 3, None)] ∧
  position_playlist <$>
    PlaylistPosition_objects
      (create (Sample.playlist (-1) [Sample.file_track 0 3], Sample.db)).2.2
  = [5; 7] ∧
  position_playlist <$>
    PlaylistPosition_objects
      (create (Sample.playlist (-1) [Sample.file_track 0 3],
         (create (Sample.playlist (-1) [Sample.file_track 0 3], Sample.db)).2.2)).2.2
  = [5; 7; 8].
Proof. repeat split; vm_compute; reflexivity. Qed.

(** ** C4: external entries are created once *)

Lemma truthy_dict_lookup (m : gmap string value) k v :
  m !! k = Some v → truthy (VDict m) = true.
Proof.
  intros H. simpl. destruct (size m) eqn:E; [|done].
  apply map_size_empty_iff in E. subst m. by rewrite lookup_empty in H.
Qed.

Lemma descriptor_row_video T F p idx id td t s :
  descriptor_row T F p idx id td = Some t → descriptor_video td = Some s →
  ∃ y, Youtube_with s T = [y] ∧ track_youtube t = Some (youtube_pk y).
Proof.
  destruct td as [| | | | | |m]; try discriminate.
  cbn -[decide dom stripped]. unfold youtube_ref.
  destruct (m !! "youtube") as [yv|]; [|discriminate]. cbn -[decide dom stripped].
  destruct (truthy yv); [|discriminate].
  destruct (pop_var yv "youtube_id") as [[[] ydef]|]; try discriminate.
  destruct (Youtube_with s0 T) as [|y [|]] eqn:E; try discriminate.
  cbn -[decide dom stripped].
  destruct (m !! "file"); [|discriminate]. cbn -[decide dom stripped].
  destruct (file_ref F v); [|discriminate]. cbn -[decide dom stripped].
  destruct (decide _); [|discriminate]. intros [= <-] [= <-]. eauto.
Qed.

(** What a successful pass of the loop body does to [Youtube]: nothing, or
    it adds the row of the descriptor's own identifier, which the table did
    not have, with the descriptor's own attributes. *)
Lemma sync_tracks_body_created p idx m d td' d' :
  sync_tracks_body p idx (VDict m, d) = (Ok tt, (td', d')) →
  Youtube_objects d' = Youtube_objects d ∨
  ∃ ym s, m !! "youtube" = Some (VDict ym) ∧
          descriptor_video (VDict m) = Some s ∧
          Youtube_with s (Youtube_objects d) = [] ∧
          Youtube_objects d' =
            Youtube_objects d ++
              [mkYoutube (next_Youtube_id d) s
                 (ym !! "title") (ym !! "views") (ym !! "duration")].
Proof.
  rewrite sync_tracks_body_dict. cbv zeta.
  destruct (m !! "youtube") as [yv|] eqn:Ey; [|discriminate].
  destruct (youtube_block yv d) as [[yo|e] d1] eqn:Eyb; [|discriminate].
  destruct (m !! "file") as [fv|] eqn:Ef; [|discriminate].
  destruct (file_block fv d1) as [[fo|e] d2] eqn:Efb; [|discriminate].
  pose proof (file_block_readonly _ _ _ _ Efb) as ->.
  destruct (Track_objects_create _ _ _ _ d1) as [[[]|e] d3] eqn:Et; [|discriminate].
  intros [= <- <-].
  apply Track_objects_create_Ok in Et as [_ ->]. simpl.
  apply youtube_block_created in Eyb as [?|(ym & s & -> & Hid & Hs & HT)];
    [by left|].
  right. exists ym, s. repeat split; try done.
  simpl. rewrite Ey, (truthy_dict_lookup _ _ _ Hid).
  unfold pop_var, pop. by rewrite Hid.
Qed.

(** Within one run of the loop, the row of an identifier the table did not
    have carries the attributes of the first descriptor with that
    identifier; descriptors after it do not touch the row. *)
Lemma enumerate_from_first_write p idx l d l' d' (i : nat) m ym s :
  enumerate_from (sync_tracks_body p) idx l d = (Ok tt, (l', d')) →
  l !! i = Some (VDict m) →
  m !! "youtube" = Some (VDict ym) →
  descriptor_video (VDict m) = Some s →
  Youtube_with s (Youtube_objects d) = [] →
  (∀ (j : nat) td, (j < i)%nat → l !! j = Some td → descriptor_video td ≠ Some s) →
  ∃ y, Youtube_with s (Youtube_objects d') = [y] ∧
       youtube_title y = ym !! "title" ∧
       youtube_views y = ym !! "views" ∧
       youtube_duration y = ym !! "duration".
Proof.
  revert idx d l' d' i. induction l as [|td0 l IH]; intros idx d l' d' i; [done|].
  cbn -[sync_tracks_body descriptor_video].
  destruct (sync_tracks_body p idx (td0, d)) as [[[]|e] [td1 d1]] eqn:Eb;
    [|discriminate].
  destruct (enumerate_from _ (idx + 1) l d1) as [rl [l2 d2]] eqn:El.
  intros [= -> <- <-] Hi Hy Hv Hs Hfirst.
  pose proof (sync_tracks_body_Ok _ _ _ _ _ _ Eb)
    as (m0 & t & -> & -> & Hrow & _).
  pose proof (enumerate_from_Ok _ _ _ _ _ _ El) as (_ & _ & _ & Hext & _).
  destruct i as [|i].
  - injection Hi as ->.
    destruct (descriptor_row_video _ _ _ _ _ _ _ _ Hrow Hv) as (y & Hy1 & _).
    apply sync_tracks_body_created in Eb as [HT|(ym' & s' & Hy' & Hv' & _ & HT)].
    + rewrite HT in Hy1. congruence.
    + rewrite Hy in Hy'. injection Hy' as <-.
      rewrite Hv in Hv'. injection Hv' as <-.
      exists (mkYoutube (next_Youtube_id d) s
                (ym !! "title") (ym !! "views") (ym !! "duration")).
      split; [|done].
      eapply table_extends_with; [done|].
      rewrite HT, Youtube_with_app, Hs. unfold Youtube_with.
      by rewrite filter_cons_True, filter_nil.
  - eapply (IH _ _ _ _ i); try done.
    + apply sync_tracks_body_created in Eb as [->|(ym' & s' & _ & Hv' & _ & ->)];
        [done|].
      rewrite Youtube_with_app, Hs. unfold Youtube_with.
      rewrite filter_cons_False, filter_nil; [done|]. simpl. intros ->.
      by apply (Hfirst 0%nat (VDict m0)); [lia|..].
    + intros j td Hj Hjl. apply (Hfirst (S j)); [lia|done].
Qed.

(** Every identifier a descriptor of a successful run carries has exactly
    one row afterwards. *)
Lemma sync_tracks_video p l d o' d' td s :
  sync_tracks p (VList l, d) = (Ok tt, (o', d')) →
  td ∈ l → descriptor_video td = Some s →
  ∃ y, Youtube_with s (Youtube_objects d') = [y].
Proof.
  intros (ts & Hrows & _)%sync_tracks_Ok (i & Hi)%list_elem_of_lookup Hv.
  destruct (descriptor_rows_lookup _ _ _ _ _ _ _ _ _ Hrows Hi) as (t & _ & Hrow).
  destruct (descriptor_row_video _ _ _ _ _ _ _ _ Hrow Hv) as (y & Hy & _). eauto.
Qed.

(** C4.  Two successful [sync_tracks] calls in a row, on a table that has at
    most one row per video identifier: afterwards the table still has at
    most one row per identifier, and exactly one for every identifier a
    descriptor of either call carries; a row that existed before or after
    the first call is still there, unchanged; and the row created for an
    identifier the table did not have carries the title, views and duration
    of the first descriptor of the first call with that identifier,
    whatever the later descriptors of either call say. *)
Theorem external_entry_first_write_wins p1 p2 (l1 l2 : list value)
    (d : DB) (o1 : value) (d1 : DB) (o2 : value) (d2 : DB) :
  NoDup (video_id <$> Youtube_objects d) →
  sync_tracks p1 (VList l1, d) = (Ok tt, (o1, d1)) →
  sync_tracks p2 (VList l2, d1) = (Ok tt, (o2, d2)) →
  NoDup (video_id <$> Youtube_objects d2) ∧
  (∀ td s, td ∈ l1 ++ l2 → descriptor_video td = Some s →
           ∃ y, Youtube_with s (Youtube_objects d2) = [y]) ∧
  (∀ s y, Youtube_with s (Youtube_objects d) = [y] ∨
          Youtube_with s (Youtube_objects d1) = [y] →
          Youtube_with s (Youtube_objects d2) = [y]) ∧
  (∀ (i : nat) m ym s,
     l1 !! i = Some (VDict m) → m !! "youtube" = Some (VDict ym) →
     descriptor_video (VDict m) = Some s →
     s ∉ video_id <$> Youtube_objects d →
     (∀ (j : nat) td, (j < i)%nat → l1 !! j = Some td →
                      descriptor_video td ≠ Some s) →
     ∃ y, Youtube_with s (Youtube_objects d2) = [y] ∧
          youtube_title y = ym !! "title" ∧
          youtube_views y = ym !! "views" ∧
          youtube_duration y = ym !! "duration").
Proof.
  intros Hnd H1 H2.
  pose proof (sync_tracks_frame _ _ _ _ _ H1) as [_ Hext1].
  pose proof (sync_tracks_frame _ _ _ _ _ H2) as [_ Hext2].
  split; [by eauto using table_extends_NoDup|].
  split; [|split].
  - intros td s [Htd|Htd]%elem_of_app Hv.
    + destruct (sync_tracks_video _ _ _ _ _ _ _ H1 Htd Hv) as [y Hy].
      exists y. by eapply table_extends_with.
    + by eapply sync_tracks_video.
  - intros s y [Hy|Hy]; eauto using table_extends_with.
  - intros i m ym s Hi Hy Hv Hs Hfirst.
    rewrite sync_tracks_list in H1.
    destruct (enumerate_from _ _ _ _) as [[[]|e] [l' d1']] eqn:E; [|discriminate].
    injection H1 as _ ->.
    destruct (enumerate_from_first_write _ _ _ _ _ _ _ _ _ _ E Hi Hy Hv) as (y & Hy1 & Hattrs).
    + simpl. by apply Youtube_with_nil_iff.
    + done.
    + exists y. split; [|done]. by eapply table_extends_with.
Qed.

(** Two calls with the identifier "abc", titled "First" and then "Second",
    on a table without it: one row, titled "First". *)
Lemma external_entry_first_write_wins_witness :
  ∃ y, Youtube_with "abc"
         (Youtube_objects
            (sync_tracks Sample.playlist5
               (VList [Sample.youtube_track 0 "abc" "Second"],
                (sync_tracks Sample.playlist5
                   (VList [VDict (list_to_map (Sample.youtube_items 0 "abc" "First"))],
                    Sample.db)).2.2)).2.2) = [y] ∧
       youtube_title y = Some (VStr "First").
Proof.
  destruct (external_entry_first_write_wins Sample.playlist5 Sample.playlist5
              [VDict (list_to_map (Sample.youtube_items 0 "abc" "First"))]
              [Sample.youtube_track 0 "abc" "Second"]
              Sample.db
              (sync_tracks Sample.playlist5
                 (VList [VDict (list_to_map (Sample.youtube_items 0 "abc" "First"))],
                  Sample.db)).2.1
              (sync_tracks Sample.playlist5
                 (VList [VDict (list_to_map (Sample.youtube_items 0 "abc" "First"))],
                  Sample.db)).2.2
              (sync_tracks Sample.playlist5
                 (VList [Sample.youtube_track 0 "abc" "Second"],
                  (sync_tracks Sample.playlist5
                     (VList [VDict (list_to_map (Sample.youtube_items 0 "abc" "First"))],
                      Sample.db)).2.2)).2.1
              (sync_tracks Sample.playlist5
                 (VList [Sample.youtube_track 0 "abc" "Second"],
                  (sync_tracks Sample.playlist5
                     (VList [VDict (list_to_map (Sample.youtube_items 0 "abc" "First"))],
                      Sample.db)).2.2)).2.2)
    as (_ & _ & _ & Hfirst).
  - simpl. constructor.
  - vm_compute. reflexivity.
  - vm_compute. reflexivity.
  - destruct (Hfirst 0%nat (list_to_map (Sample.youtube_items 0 "abc" "First"))
                (list_to_map (Sample.youtube_attrs "abc" "First")) "abc")
      as (y & Hy & Htitle & _).
    + reflexivity.
    + vm_compute. reflexivity.
    + vm_compute. reflexivity.
    + simpl. by intros ?%elem_of_nil.
    + intros j td Hj. lia.
    + exists y. split; [exact Hy|]. rewrite Htitle. vm_compute. reflexivity.
Defined.

(** ** C5: descriptors with no source, or with two *)

(** C5, as the code has it.  [sync_tracks] has no check on the number of
    sources.  A descriptor whose [youtube] and [file] entries are both
    false ([None], or empty) goes through and is stored as a track with
    neither reference; a descriptor whose [youtube] entry resolves (to a row
    found or created) and whose [file] entry names an existing file goes
    through and is stored as a track with both references. *)
Theorem unchecked_descriptor_stored p idx (m : gmap string value) (d : DB)
    (yv fv : value) :
  m !! "youtube" = Some yv → m !! "file" = Some fv →
  dom (stripped idx m) ⊆ ({["order"; "type"]} : gset string) →
  (truthy yv = false → truthy fv = false →
     sync_tracks_body p idx (VDict m, d) =
     (Ok tt, (VDict (stripped idx m),
              set_next_Track_id (next_Track_id d + 1)
                (set_Track_objects
                   (λ l, l ++ [mkTrack (next_Track_id d) p.1 (Some (VInt idx))
                                 (m !! "type") None None]) d)))) ∧
  (∀ y d1 f,
     youtube_block yv d = (Ok (Some y), d1) →
     file_ref (File_objects d) fv = Some (Some f) →
     sync_tracks_body p idx (VDict m, d) =
     (Ok tt, (VDict (stripped idx m),
              set_next_Track_id (next_Track_id d + 1)
                (set_Track_objects
                   (λ l, l ++ [mkTrack (next_Track_id d) p.1 (Some (VInt idx))
                                 (m !! "type") (Some f) (Some y)]) d1)))).
Proof.
  intros Hy Hf Hdom. split.
  - intros Hyv Hfv. rewrite sync_tracks_body_dict. cbv zeta. rewrite Hy, Hf.
    unfold youtube_block, file_block. rewrite Hyv, Hfv.
    unfold Track_objects_create.
    destruct (decide (dom (stripped idx m) ⊆ _)) as [_|?]; [|done].
    by rewrite stripped_order, stripped_type.
  - intros y d1 f Hyb Hfr. rewrite sync_tracks_body_dict. cbv zeta.
    rewrite Hy, Hyb, Hf.
    apply youtube_block_Ok in Hyb as (_ & _ & _ & Hn & _ & HF & _).
    rewrite <-HF in Hfr. apply file_block_Ok in Hfr. rewrite Hfr.
    unfold Track_objects_create.
    destruct (decide (dom (stripped idx m) ⊆ _)) as [_|?]; [|done].
    by rewrite stripped_order, stripped_type, Hn.
Qed.

(** A descriptor with [youtube] and [file] both [None] becomes track 3 of
    playlist 5, with no source. *)
Lemma unchecked_descriptor_stored_witness :
  sync_tracks_body Sample.playlist5 0
    (VDict (list_to_map Sample.neither_items), Sample.db) =
  (Ok tt,
   (VDict (stripped 0 (list_to_map Sample.neither_items)),
    set_next_Track_id 4
      (set_Track_objects
         (λ l, l ++ [mkTrack 3 5 (Some (VInt 0)) (Some (VInt 0)) None None])
         Sample.db))).
Proof.
  refine (proj1 (unchecked_descriptor_stored Sample.playlist5 0
                   (list_to_map Sample.neither_items) Sample.db VNone VNone
                   _ _ _) _ _).
  - reflexivity.
  - reflexivity.
  - apply (bool_decide_unpack _). vm_compute. exact I.
  - reflexivity.
  - reflexivity.
Defined.

(** The claim as stated fails: a descriptor with neither source and one
    with both are accepted, and both tracks are stored. *)
Lemma malformed_descriptor_counterexample :
  (sync_tracks Sample.playlist5
     (VList [Sample.neither; Sample.both], Sample.db)).1 = Ok tt ∧
  playlist_tracks 5
    (sync_tracks Sample.playlist5
       (VList [Sample.neither; Sample.both], Sample.db)).2.2 =
  [mkTrack 3 5 (Some (VInt 0)) (Some (VInt 0)) None None;
   mkTrack 4 5 (Some (VInt 1)) (Some (VInt 1)) (Some 3) (Some 1)].
Proof. split; vm_compute; reflexivity. Qed.

(** ** C6: a file that does not exist *)

Lemma enumerate_from_app body idx (l1 l2 : list value) d :
  enumerate_from body idx (l1 ++ l2) d =
  match enumerate_from body idx l1 d with
  | (Ok _, (l1', d1)) =>
      let '(r, (l2', d2)) :=
        enumerate_from body (idx + Z.of_nat (length l1)) l2 d1 in
      (r, (l1' ++ l2', d2))
  | (Raise e, (l1', d1)) => (Raise e, (l1' ++ l2, d1))
  end.
Proof.
  revert idx d. induction l1 as [|x l1 IH]; intros idx d.
  - simpl. rewrite Z.add_0_r.
    by destruct (enumerate_from body idx l2 d) as [r [l2' d2]].
  - cbn [app enumerate_from length].
    destruct (body idx (x, d)) as [[[]|e] [x' d1]]; [|done].
    rewrite IH.
    destruct (enumerate_from body (idx + 1) l1 d1) as [[[]|e] [l1' d2]]; [|done].
    replace (idx + 1 + Z.of_nat (length l1)) with (idx + Z.of_nat (S (length l1)))
      by lia.
    by destruct (enumerate_from body _ l2 d2) as [r [l2' d3]].
Qed.

Lemma dangling_file_ref (F : gset Z) (fm : gmap string value) z :
  fm !! "id" = Some (VInt z) → z ∉ F → file_ref F (VDict fm) = None.
Proof.
  intros Hid Hz. unfold file_ref. rewrite (truthy_dict_lookup _ _ _ Hid).
  simpl. rewrite Hid. by rewrite decide_False.
Qed.

Lemma dangling_descriptor_row T (F : gset Z) p idx id (m fm : gmap string value) z :
  m !! "file" = Some (VDict fm) → fm !! "id" = Some (VInt z) → z ∉ F →
  descriptor_row T F p idx id (VDict m) = None.
Proof.
  intros Hf Hid Hz. cbn -[decide dom stripped].
  destruct (m !! "youtube"); [|done]. cbn -[decide dom stripped].
  destruct (youtube_ref T v); [|done]. cbn -[decide dom stripped].
  rewrite Hf. cbn -[decide dom stripped].
  by rewrite (dangling_file_ref _ _ _ Hid Hz).
Qed.

Lemma dangling_sync_tracks_not_Ok p (l : list value) d (k : nat)
    (m fm : gmap string value) z o' d' :
  l !! k = Some (VDict m) → m !! "file" = Some (VDict fm) →
  fm !! "id" = Some (VInt z) → z ∉ File_objects d →
  sync_tracks p (VList l, d) ≠ (Ok tt, (o', d')).
Proof.
  intros Hk Hf Hid Hz (ts & Hrows & _)%sync_tracks_Ok.
  destruct (descriptor_rows_lookup _ _ _ _ _ _ _ _ _ Hrows Hk) as (t & _ & Hrow).
  by rewrite (dangling_descriptor_row _ _ _ _ _ _ _ _ Hf Hid Hz) in Hrow.
Qed.

Lemma dangling_body p idx (m fm : gmap string value) z d yv :
  m !! "file" = Some (VDict fm) → fm !! "id" = Some (VInt z) →
  z ∉ File_objects d → m !! "youtube" = Some yv → truthy yv = false →
  sync_tracks_body p idx (VDict m, d) =
  (Raise (DoesNotExist "File"), (VDict (stripped idx m), d)).
Proof.
  intros Hf Hid Hz Hy Hyv. rewrite sync_tracks_body_dict. cbv zeta.
  rewrite Hy. unfold youtube_block. rewrite Hyv, Hf.
  unfold file_block. rewrite (truthy_dict_lookup _ _ _ Hid). simpl. rewrite Hid.
  unfold File_objects_get. simpl. by rewrite decide_False.
Qed.

(** C6.  Let the descriptor at position [k] of the list name a file [z]
    that does not exist.  The lookup of [z] raises [File.DoesNotExist] and
    creates nothing; [sync_tracks] on the list raises and leaves the
    database as it was, and so does a save of validated data with that
    track list; and when the descriptors before [k] resolve and the
    descriptor's own [youtube] entry is false, the exception [sync_tracks]
    raises is [File.DoesNotExist]. *)
Theorem dangling_file_aborts p (l : list value) (d : DB) (k : nat)
    (m fm : gmap string value) (z : Z) :
  l !! k = Some (VDict m) → m !! "file" = Some (VDict fm) →
  fm !! "id" = Some (VInt z) → z ∉ File_objects d →
  File_objects_get (VInt z) d = (Raise (DoesNotExist "File"), d) ∧
  (∃ e o', sync_tracks p (VList l, d) = (Raise e, (o', d))) ∧
  (∀ instance (mv : gmap string value), mv !! "tracks" = Some (VList l) →
     ∃ e vd', update instance (VDict mv, d) = (Raise e, (vd', d))) ∧
  (∀ yv l1 d1,
     m !! "youtube" = Some yv → truthy yv = false →
     enumerate_from (sync_tracks_body p) 0 (take k l)
       (set_Track_objects (filter (λ t, track_playlist t ≠ p.1)) d)
       = (Ok tt, (l1, d1)) →
     sync_tracks p (VList l, d) =
     (Raise (DoesNotExist "File"),
      (VList (l1 ++ VDict (stripped (Z.of_nat k) m) :: drop (S k) l), d))).
Proof.
  intros Hk Hf Hid Hz. split; [|split; [|split]].
  - unfold File_objects_get. simpl. by rewrite decide_False.
  - destruct (sync_tracks p (VList l, d)) as [[[]|e] [o' d']] eqn:E.
    + by destruct (dangling_sync_tracks_not_Ok _ _ _ _ _ _ _ _ _ Hk Hf Hid Hz E).
    + pose proof (sync_tracks_restores _ _ _ _ E) as Hd. simpl in Hd. subst d'.
      eauto.
  - intros instance mv Hmv.
    destruct (update instance (VDict mv, d)) as [[r|e] [vd' d']] eqn:E.
    + exfalso.
      apply update_Ok in E as (m' & o' & [= <-] & _ & Hsteps).
      destruct Hsteps as [id user tracks_data owner name public pp ati d0
            Hid' Ht Ho Hu Huser Hname Hpublic Hpp Hati Hrow Hr Hpos Hsync].
      rewrite Hmv in Ht. injection Ht as <-.
      apply update_or_create_Ok in Hpos as (_ & _ & _ & HF & _).
      refine (dangling_sync_tracks_not_Ok _ _ _ _ _ _ _ _ _ Hk Hf Hid _ Hsync).
      by rewrite HF.
    + pose proof (update_restores _ _ _ _ E) as Hd. simpl in Hd. subst d'.
      eauto.
  - intros yv l1 d1 Hy Hyv Hpre.
    rewrite sync_tracks_list.
    rewrite <-(take_drop_middle l k (VDict m)) at 1 by done.
    rewrite enumerate_from_app, Hpre.
    cbn [enumerate_from].
    apply enumerate_from_Ok in Hpre as (_ & _ & _ & _ & _ & _ & _ & HF & _).
    rewrite (dangling_body p _ m fm z d1 yv) by (done || by rewrite HF).
    rewrite length_take_le by (apply lookup_lt_Some in Hk; lia).
    by rewrite Z.add_0_l.
Qed.

(** The second descriptor of the sample names file 99; the first resolves
    and the second has no youtube entry. *)
Lemma dangling_file_aborts_witness :
  sync_tracks Sample.playlist5
    (VList [Sample.file_track 0 3;
            VDict (list_to_map (Sample.file_items 1 99));
            Sample.youtube_track 2 "abc" "T"], Sample.db) =
  (Raise (DoesNotExist "File"),
   (VList (stripped_list 0 [Sample.file_track 0 3] ++
           VDict (stripped 1 (list_to_map (Sample.file_items 1 99))) ::
           [Sample.youtube_track 2 "abc" "T"]),
    Sample.db)).
Proof.
  refine (proj2 (proj2 (proj2
    (dangling_file_aborts Sample.playlist5
       [Sample.file_track 0 3;
        VDict (list_to_map (Sample.file_items 1 99));
        Sample.youtube_track 2 "abc" "T"]
       Sample.db 1%nat
       (list_to_map (Sample.file_items 1 99))
       (list_to_map (Sample.file_ref_items 99)) 99 _ _ _ _)))
    VNone _
    (enumerate_from (sync_tracks_body Sample.playlist5) 0
       [Sample.file_track 0 3]
       (set_Track_objects (filter (λ t, track_playlist t ≠ 5)) Sample.db)).2.2
    _ _ _).
  - reflexivity.
  - reflexivity.
  - reflexivity.
  - apply (bool_decide_unpack _). vm_compute. exact I.
  - reflexivity.
  - reflexivity.
  - vm_compute. reflexivity.
Defined.

(** ** C10: [sync_tracks] consumes its descriptors *)






(** * Further properties of the serializers *)

(** ** The directory serializer *)

Lemma split_last_Some c s before after :
  split_last c s = Some (before, after) →
  s = before +:+ String c after ∧ occurs c after = false.
Proof.
  revert before. induction s as [|a s IH]; intros before; [done|]. simpl.
  destruct (split_last c s) as [[b' a']|] eqn:E.
  - intros [= <- <-]. destruct (IH b' eq_refl) as [-> ?]. done.
  - destruct (Ascii.eqb a c) eqn:Ea; [|done]. intros [= <- <-].
    apply Ascii.eqb_eq in Ea as ->. split; [done|].
    clear IH. induction s as [|a' s IH]; [done|]. simpl in *.
    destruct (split_last c s) as [[]|]; [done|].
    destruct (Ascii.eqb a' c); [done|]. by apply IH.
Qed.

Lemma split_last_None c s : split_last c s = None ↔ occurs c s = false.
Proof.
  induction s as [|a s IH]; [done|]. simpl.
  destruct (split_last c s) as [[]|].
  - split; [done|]. intros [_ H]%orb_false_iff. by apply IH in H.
  - destruct (Ascii.eqb a c); [done|]. simpl. by rewrite <-IH.
Qed.

Lemma endswith_drop_last s c :
  endswith s c = true → s = drop_last s +:+ String c EmptyString.
Proof.
  induction s as [|a s IH]; [done|]. destruct s as [|a' s'].
  - simpl. by intros ->%Ascii.eqb_eq.
  - intros H. change (endswith (String a' s') c = true) in H.
    change (String a (String a' s') =
            String a (drop_last (String a' s') +:+ String c EmptyString)).
    by rewrite <-(IH H).
Qed.

Lemma str_append_cons a (s t : string) : String a s +:+ t = String a (s +:+ t).
Proof. reflexivity. Qed.

Lemma endswith_append_sep s c : endswith (s +:+ String c EmptyString) c = true.
Proof.
  induction s as [|a s IH]; [apply Ascii.eqb_refl|].
  rewrite str_append_cons. simpl.
  destruct (s +:+ String c EmptyString) eqn:E; [|done].
  by destruct s.
Qed.

Lemma occurs_endswith s c : occurs c s = false → endswith s c = false.
Proof.
  induction s as [|a s IH]; [done|]. simpl.
  intros [Ha Hs]%orb_false_iff. destruct s; [done|]. by apply IH.
Qed.

Lemma str_append_assoc_sep (b r : string) c :
  b +:+ String c r = (b +:+ String c EmptyString) +:+ r.
Proof. induction b as [|a b IH]; [done|]. by rewrite !str_append_cons, IH. Qed.

Lemma str_append_assoc (s t u : string) : (s +:+ t) +:+ u = s +:+ t +:+ u.
Proof. induction s as [|a s IH]; [done|]. by rewrite !str_append_cons, IH. Qed.

Lemma str_append_empty_r (s : string) : s = s +:+ EmptyString.
Proof. induction s as [|a s IH]; [done|]. by rewrite str_append_cons, <-IH. Qed.

Section directory.
Context (sep : Ascii.ascii).
Import SimpleDirectorySerializer.

(** [get_sanitized_path] never fails: [rsplit] returns at least one piece,
    so the index [-1] is always in range. *)
Lemma get_sanitized_path_total dir :
  ∃ r, get_sanitized_path sep dir = Some r.
Proof.
  unfold get_sanitized_path, last_item, rsplit1.
  destruct (directory_parent dir); [eauto|].
  destruct (split_last sep _) as [[]|]; simpl; eauto.
Qed.

Lemma rsplit1_last_no_sep s r :
  last_item (rsplit1 s sep) = Some r → occurs sep r = false.
Proof.
  unfold last_item, rsplit1.
  destruct (split_last sep s) as [[before after]|] eqn:E; simpl; intros [= <-].
  - by apply split_last_Some in E as [_ ?].
  - by apply split_last_None.
Qed.

(** For the base directory (no parent) [get_sanitized_path] returns (its
    index [-1] is always in range) the last component of the path, a
    trailing separator set aside: the result holds no separator, and the
    path is a prefix that is empty or ends with a separator, then the
    result, then the separator if and only if the path ends with one. *)
Theorem get_sanitized_path_base dir :
  directory_parent dir = None →
  ∃ r pre,
    get_sanitized_path sep dir = Some r ∧
    occurs sep r = false ∧
    directory_path dir =
      pre +:+ r +:+ (if endswith (directory_path dir) sep
                     then String sep EmptyString else EmptyString) ∧
    (pre = EmptyString ∨ endswith pre sep = true).
Proof.
  intros Hroot. destruct (get_sanitized_path_total dir) as [r Hr].
  exists r. revert Hr.
  unfold get_sanitized_path, last_item, rsplit1. rewrite Hroot.
  set (path := directory_path dir).
  set (suf := if endswith path sep then String sep EmptyString else EmptyString).
  assert (path = (if endswith path sep then drop_last path else path) +:+ suf)
    as Hpath.
  { unfold suf. destruct (endswith path sep) eqn:E.
    - by apply endswith_drop_last.
    - apply str_append_empty_r. }
  destruct (split_last sep _) as [[before after]|] eqn:E; simpl; intros [= <-].
  - apply split_last_Some in E as [E Hocc].
    exists (before +:+ String sep EmptyString).
    split; [done|]. split; [done|]. split; [|right].
    + rewrite Hpath at 1. by rewrite E, str_append_assoc_sep, !str_append_assoc.
    + apply endswith_append_sep.
  - apply split_last_None in E.
    exists EmptyString. split; [done|]. split; [done|]. split; [done|by left].
Qed.

(** A directory with a parent is shown with its path as it is stored. *)
Lemma get_sanitized_path_child dir parent :
  directory_parent dir = Some parent →
  get_sanitized_path sep dir = Some (directory_path dir).
Proof. unfold get_sanitized_path. by intros ->. Qed.

(** Sanitizing is idempotent on base directories: a base directory whose
    path is already the result of sanitizing one is shown unchanged. *)
Theorem get_sanitized_path_idempotent dir r id :
  directory_parent dir = None →
  get_sanitized_path sep dir = Some r →
  get_sanitized_path sep (mkDirectory id None r) = Some r.
Proof.
  intros Hroot Hr.
  assert (occurs sep r = false) as Hocc.
  { unfold get_sanitized_path in Hr. rewrite Hroot in Hr.
    by apply rsplit1_last_no_sep in Hr. }
  unfold get_sanitized_path, last_item, rsplit1. simpl.
  rewrite (occurs_endswith _ _ Hocc).
  apply split_last_None in Hocc. by rewrite Hocc.
Qed.

(** The sentinel [-1] of [get_parent] is not ambiguous: when primary keys
    are not negative, [get_parent] gives [-1] exactly for a directory
    without parent, and the parent's key otherwise. *)
Theorem get_parent_sentinel dir :
  (∀ parent, directory_parent dir = Some parent → 0 ≤ directory_id parent) →
  (get_parent dir = -1 ↔ directory_parent dir = None) ∧
  (∀ parent, directory_parent dir = Some parent →
             get_parent dir = directory_id parent).
Proof.
  intros Hpos. unfold get_parent. destruct (directory_parent dir) as [q|].
  - specialize (Hpos q eq_refl). split; [split; [lia|done]|].
    by intros ? [= <-].
  - split; [done|]. done.
Qed.
End directory.

(** The base directory "/home/music/" is shown as "music". *)
Lemma get_sanitized_path_base_witness :
  SimpleDirectorySerializer.get_sanitized_path Sample.slash Sample.base_dir
  = Some Sample.music ∧
  ∃ pre, directory_path Sample.base_dir
         = pre +:+ Sample.music +:+ String Sample.slash EmptyString.
Proof.
  destruct (get_sanitized_path_base Sample.slash Sample.base_dir eq_refl)
    as (r & pre & Hr & _ & Hpath & _).
  assert (r = Sample.music) as ->.
  { vm_compute in Hr. by injection Hr as <-. }
  split; [exact Hr|]. exists pre. exact Hpath.
Defined.

(** "music" stays "music". *)
Lemma get_sanitized_path_idempotent_witness :
  SimpleDirectorySerializer.get_sanitized_path Sample.slash (mkDirectory 9 None Sample.music)
  = Some Sample.music.
Proof.
  apply (get_sanitized_path_idempotent Sample.slash Sample.base_dir Sample.music 9).
  - reflexivity.
  - vm_compute. reflexivity.
Defined.

(** A child of the base directory reports the key of the base
    directory. *)
Lemma get_parent_sentinel_witness :
  SimpleDirectorySerializer.get_parent Sample.child_dir = 1.
Proof.
  refine (proj2 (get_parent_sentinel Sample.child_dir _) Sample.base_dir eq_refl).
  intros parent [= <-]. simpl. lia.
Defined.

(** ** What [sync_tracks] leaves alone *)

Lemma filter_playlist_other (p q : Z) (X : list Track) :
  q ≠ p →
  filter (λ t, track_playlist t = q) (filter (λ t, track_playlist t ≠ p) X)
  = filter (λ t, track_playlist t = q) X.
Proof.
  intros Hq. induction X as [|x X IH]; [done|].
  destruct (decide (track_playlist x = p)) as [Hx|Hx].
  - rewrite (filter_cons_False _ x X) by naive_solver.
    rewrite (filter_cons_False _ x X) by congruence. done.
  - rewrite (filter_cons_True _ x X) by done.
    destruct (decide (track_playlist x = q)).
    + by rewrite !filter_cons_True, IH.
    + by rewrite !filter_cons_False.
Qed.

Lemma filter_playlist_foreign (p q : Z) (ts : list Track) :
  q ≠ p → Forall (λ t, track_playlist t = p) ts →
  filter (λ t, track_playlist t = q) ts = [].
Proof.
  intros Hq Hts. induction Hts as [|t ts Ht _ IH]; [done|].
  rewrite filter_cons_False by congruence. done.
Qed.

Lemma sync_tracks_keeps_others p (o : value) (d : DB) (o' : value) (d' : DB) q :
  sync_tracks p (o, d) = (Ok tt, (o', d')) → q ≠ p.1 →
  playlist_tracks q d' = playlist_tracks q d.
Proof.
  intros H Hq. unfold playlist_tracks.
  assert ((∃ l, o = VList l) ∨ ∀ l, o ≠ VList l) as [[l ->]|Hn]
    by (destruct o; eauto).
  - apply sync_tracks_Ok in H as (ts & Hrows & _ & _ & -> & _).
    rewrite filter_app, filter_playlist_other by done.
    rewrite (filter_playlist_foreign p.1 q ts), app_nil_r;
      eauto using descriptor_rows_playlist.
  - pose proof (sync_tracks_not_list p o d o' d' Hn H d) as H'.
    rewrite H' in H. injection H as _ <-. simpl.
    by apply filter_playlist_other.
Qed.

(** A successful [sync_tracks] touches the tracks of its own playlist
    only: every other playlist keeps its tracks, in their order, and the
    users, files, playlists and playback positions are as before; the
    [Youtube] table keeps every row it had. *)
Theorem sync_tracks_other_playlists p (o : value) (d : DB) (o' : value) (d' : DB) :
  sync_tracks p (o, d) = (Ok tt, (o', d')) →
  (∀ q, q ≠ p.1 → playlist_tracks q d' = playlist_tracks q d) ∧
  same_frame d d' ∧
  table_extends (Youtube_objects d) (Youtube_objects d').
Proof.
  intros H. split.
  - intros q Hq. by apply (sync_tracks_keeps_others p o d o' d' q).
  - by apply (sync_tracks_frame p o d o' d').
Qed.

(** Synchronising playlist 5 leaves the track of playlist 6 in place. *)
Lemma sync_tracks_other_playlists_witness :
  playlist_tracks 6
    (sync_tracks Sample.playlist5 (VList Sample.nines, Sample.db)).2.2
  = playlist_tracks 6 Sample.db.
Proof.
  refine (proj1 (sync_tracks_other_playlists Sample.playlist5
                   (VList Sample.nines) Sample.db
                   (sync_tracks Sample.playlist5 (VList Sample.nines, Sample.db)).2.1
                   (sync_tracks Sample.playlist5 (VList Sample.nines, Sample.db)).2.2
                   _) 6 _).
  - vm_compute. reflexivity.
  - discriminate.
Defined.

(** ** Where [sync_tracks] stops *)

(** The loop stops at the first descriptor whose pass raises: the exception
    leaves [sync_tracks], the descriptors before it have been consumed, the
    failing one is left as its pass left it, the ones after it are
    untouched, and the database is the one before the call. *)
Theorem sync_tracks_first_failure p (l : list value) (d : DB) (k : nat)
    (td : value) (l1 : list value) (d1 : DB) e (td' : value) (d2 : DB) :
  l !! k = Some td →
  enumerate_from (sync_tracks_body p) 0 (take k l)
    (set_Track_objects (filter (λ t, track_playlist t ≠ p.1)) d)
    = (Ok tt, (l1, d1)) →
  sync_tracks_body p (Z.of_nat k) (td, d1) = (Raise e, (td', d2)) →
  sync_tracks p (VList l, d) =
  (Raise e, (VList (l1 ++ td' :: drop (S k) l), d)) ∧
  l1 = stripped_list 0 (take k l).
Proof.
  intros Hk Hpre Hbody. split.
  - rewrite sync_tracks_list.
    rewrite <-(take_drop_middle l k td) at 1 by done.
    rewrite enumerate_from_app, Hpre. cbn [enumerate_from].
    rewrite length_take_le by (apply lookup_lt_Some in Hk; lia).
    by rewrite Z.add_0_l, Hbody.
  - by apply enumerate_from_Ok in Hpre as (_ & _ & -> & _).
Qed.

(** In the sample with a missing file at position 1, the first descriptor
    is consumed, the second has lost its entries, the third is intact. *)
Lemma sync_tracks_first_failure_witness :
  sync_tracks Sample.playlist5
    (VList [Sample.file_track 0 3; Sample.file_track 1 99;
            Sample.youtube_track 2 "abc" "T"], Sample.db) =
  (Raise (DoesNotExist "File"),
   (VList ([VDict (stripped 0 (list_to_map (Sample.file_items 0 3)))] ++
           VDict (stripped 1 (list_to_map (Sample.file_items 1 99))) ::
           [Sample.youtube_track 2 "abc" "T"]),
    Sample.db)).
Proof.
  refine (proj1 (sync_tracks_first_failure Sample.playlist5
    [Sample.file_track 0 3; Sample.file_track 1 99;
     Sample.youtube_track 2 "abc" "T"]
    Sample.db 1%nat (Sample.file_track 1 99)
    [VDict (stripped 0 (list_to_map (Sample.file_items 0 3)))]
    (enumerate_from (sync_tracks_body Sample.playlist5) 0
       [Sample.file_track 0 3]
       (set_Track_objects (filter (λ t, track_playlist t ≠ 5)) Sample.db)).2.2
    (DoesNotExist "File")
    (VDict (stripped 1 (list_to_map (Sample.file_items 1 99))))
    (enumerate_from (sync_tracks_body Sample.playlist5) 0
       [Sample.file_track 0 3]
       (set_Track_objects (filter (λ t, track_playlist t ≠ 5)) Sample.db)).2.2
    _ _ _)).
  - reflexivity.
  - vm_compute. reflexivity.
  - vm_compute. reflexivity.
Defined.

(** ** Descriptors that cannot be read *)

Lemma incomplete_descriptor_row T F p idx id td :
  (∀ m, td = VDict m → m !! "youtube" = None ∨ m !! "file" = None) →
  descriptor_row T F p idx id td = None.
Proof.
  intros H. destruct td as [| | | | | |m]; try done.
  cbn -[decide dom stripped].
  destruct (H m eq_refl) as [->| Hf]; [done|].
  destruct (m !! "youtube"); [|done]. cbn -[decide dom stripped].
  destruct (youtube_ref T v); [|done]. cbn -[decide dom stripped].
  by rewrite Hf.
Qed.

(** A list in which some element is not a dict, or is a dict without a
    [youtube] key or without a [file] key, cannot be synchronised:
    [sync_tracks] raises and the database is as before.  When the
    descriptors before a dict without [youtube] key go through, the
    exception is [KeyError] for [youtube], raised after [order] has been
    set and [id] and [playlist] removed. *)
Theorem incomplete_descriptor_aborts p (l : list value) (d : DB) (k : nat)
    (td : value) :
  l !! k = Some td →
  (∀ m, td = VDict m → m !! "youtube" = None ∨ m !! "file" = None) →
  (∃ e o', sync_tracks p (VList l, d) = (Raise e, (o', d))) ∧
  (∀ m l1 d1,
     td = VDict m → m !! "youtube" = None →
     enumerate_from (sync_tracks_body p) 0 (take k l)
       (set_Track_objects (filter (λ t, track_playlist t ≠ p.1)) d)
       = (Ok tt, (l1, d1)) →
     sync_tracks p (VList l, d) =
     (Raise (KeyError "youtube"),
      (VList (l1 ++ VDict (delete "playlist" (delete "id"
                             (<["order" := VInt (Z.of_nat k)]> m)))
                 :: drop (S k) l), d))).
Proof.
  intros Hk Htd. split.
  - destruct (sync_tracks p (VList l, d)) as [[[]|e] [o' d']] eqn:E.
    + apply sync_tracks_Ok in E as (ts & Hrows & _).
      destruct (descriptor_rows_lookup _ _ _ _ _ _ _ _ _ Hrows Hk) as (t & _ & Hrow).
      by rewrite incomplete_descriptor_row in Hrow.
    + pose proof (sync_tracks_restores _ _ _ _ E) as Hd. simpl in Hd. subst d'.
      eauto.
  - intros m l1 d1 -> Hy Hpre.
    rewrite sync_tracks_list.
    rewrite <-(take_drop_middle l k (VDict m)) at 1 by done.
    rewrite enumerate_from_app, Hpre. cbn [enumerate_from].
    rewrite length_take_le by (apply lookup_lt_Some in Hk; lia).
    rewrite Z.add_0_l, sync_tracks_body_dict. cbv zeta. by rewrite Hy.
Qed.

(** A first descriptor without [youtube] key. *)
Lemma incomplete_descriptor_aborts_witness :
  sync_tracks Sample.playlist5
    (VList [VDict (list_to_map Sample.no_youtube_items)], Sample.db) =
  (Raise (KeyError "youtube"),
   (VList [VDict (delete "playlist" (delete "id"
             (<["order" := VInt 0]> (list_to_map Sample.no_youtube_items))))],
    Sample.db)).
Proof.
  refine (proj2 (incomplete_descriptor_aborts Sample.playlist5
                   [VDict (list_to_map Sample.no_youtube_items)] Sample.db 0%nat
                   (VDict (list_to_map Sample.no_youtube_items)) _ _)
            (list_to_map Sample.no_youtube_items) []
            (set_Track_objects (filter (λ t, track_playlist t ≠ 5)) Sample.db)
            _ _ _).
  - reflexivity.
  - intros m [= <-]. left. reflexivity.
  - reflexivity.
  - reflexivity.
  - reflexivity.
Defined.

(** ** The references of the stored tracks *)

Lemma descriptor_rows_elem T F p idx id l ts t :
  descriptor_rows T F p idx id l = Some ts → t ∈ ts →
  ∃ td idx' id', td ∈ l ∧ descriptor_row T F p idx' id' td = Some t.
Proof.
  revert idx id ts. induction l as [|td l IH]; intros idx id ts.
  - intros [= <-] ?%elem_of_nil. done.
  - cbn -[descriptor_row].
    destruct (descriptor_row T F p idx id td) as [t0|] eqn:E; [|discriminate].
    cbn -[descriptor_row].
    destruct (descriptor_rows T F p (idx + 1) (id + 1) l) as [ts0|] eqn:E';
      [|discriminate].
    intros [= <-] [->|Ht]%elem_of_cons.
    + exists td, idx, id. split; [left|done].
    + destruct (IH _ _ _ E' Ht) as (td' & idx' & id' & ? & ?).
      exists td', idx', id'. split; [by right|done].
Qed.

Lemma descriptor_row_references T F p idx id td t :
  descriptor_row T F p idx id td = Some t →
  (∀ z, track_file t = Some z → z ∈ F) ∧
  (∀ pk, track_youtube t = Some pk → ∃ y, y ∈ T ∧ youtube_pk y = pk).
Proof.
  destruct td as [| | | | | |m]; try discriminate.
  cbn -[decide dom stripped].
  destruct (m !! "youtube") as [yv|]; [|discriminate]. cbn -[decide dom stripped].
  destruct (youtube_ref T yv) as [yo|] eqn:Ey; [|discriminate].
  cbn -[decide dom stripped].
  destruct (m !! "file") as [fv|]; [|discriminate]. cbn -[decide dom stripped].
  destruct (file_ref F fv) as [fo|] eqn:Ef; [|discriminate].
  cbn -[decide dom stripped].
  destruct (decide _) as [_|]; [|discriminate]. intros [= <-]. simpl. split.
  - intros z ->. unfold file_ref in Ef. destruct (truthy fv); [|done].
    destruct (getitem fv "id") as [[]|]; try done.
    case_decide; [|done]. by injection Ef as <-.
  - intros pk ->. unfold youtube_ref in Ey. destruct (truthy yv); [|done].
    destruct (pop_var yv "youtube_id") as [[yid ?]|]; [|done].
    destruct yid as [| | | |vid| |]; try done.
    destruct (Youtube_with vid T) as [|y [|]] eqn:E; try done.
    injection Ey as <-. exists y. split; [|done].
    assert (y ∈ Youtube_with vid T) as Hy by (rewrite E; left).
    by apply list_elem_of_filter in Hy as [_ ?].
Qed.

(** After a successful [sync_tracks] no track of the playlist dangles: a
    track with a file references a [File] that exists, and a track with an
    external entry references a [Youtube] row of the table. *)
Theorem sync_tracks_references_exist p (l : list value) (d : DB) (o' : value)
    (d' : DB) (t : Track) :
  sync_tracks p (VList l, d) = (Ok tt, (o', d')) →
  t ∈ playlist_tracks p.1 d' →
  (∀ z, track_file t = Some z → z ∈ File_objects d') ∧
  (∀ pk, track_youtube t = Some pk →
         ∃ y, y ∈ Youtube_objects d' ∧ youtube_pk y = pk).
Proof.
  intros (ts & Hrows & _ & _ & _ & -> & _ & Hfr)%sync_tracks_Ok Ht.
  destruct (descriptor_rows_elem _ _ _ _ _ _ _ _ Hrows Ht)
    as (td & idx' & id' & _ & Hrow).
  destruct Hfr as (_ & -> & _).
  by eapply descriptor_row_references.
Qed.

(** The first track stored for the sample references file 3, which
    exists. *)
Lemma sync_tracks_references_exist_witness :
  3 ∈ File_objects
        (sync_tracks Sample.playlist5 (VList Sample.nines, Sample.db)).2.2.
Proof.
  refine (proj1 (sync_tracks_references_exist Sample.playlist5 Sample.nines
                   Sample.db
                   (sync_tracks Sample.playlist5 (VList Sample.nines, Sample.db)).2.1
                   (sync_tracks Sample.playlist5 (VList Sample.nines, Sample.db)).2.2
                   (mkTrack 3 5 (Some (VInt 0)) (Some (VInt 0)) (Some 3) None)
                   _ _) 3 eq_refl).
  - vm_compute. reflexivity.
  - vm_compute. left.
Defined.

(** ** Saves that fail before the first write *)

(** [update] resolves the owner first.  With a null owner (the serializer
    allows it) the subscript raises [TypeError]; with the identity of a user
    that does not exist the lookup raises [User.DoesNotExist].  Either way
    nothing has been written, the playlist has not been looked at, and the
    validated data have lost their [id], [tracks] and [owner] entries. *)
Theorem update_owner_unresolved instance (m : gmap string value) (d : DB)
    (tracks owner : value) :
  m !! "tracks" = Some tracks → m !! "owner" = Some owner →
  (owner = VNone →
     update instance (VDict m, d) =
     (Raise TypeError,
      (VDict (delete "owner" (delete "tracks" (delete "id" m))), d))) ∧
  (∀ (om : gmap string value) u,
     owner = VDict om → om !! "id" = Some (VInt u) → u ∉ User_objects d →
     update instance (VDict m, d) =
     (Raise (DoesNotExist "User"),
      (VDict (delete "owner" (delete "tracks" (delete "id" m))), d))).
Proof.
  intros Ht Ho. split.
  - intros ->. unfold update.
    rewrite bind_eq, local_pop_default_dict.
    rewrite bind_eq, local_pop_dict, lookup_delete_ne, Ht by done.
    rewrite bind_eq, local_pop_dict, !lookup_delete_ne, Ho by done.
    reflexivity.
  - intros om u -> Hid Hu. unfold update.
    rewrite bind_eq, local_pop_default_dict.
    rewrite bind_eq, local_pop_dict, lookup_delete_ne, Ht by done.
    rewrite bind_eq, local_pop_dict, !lookup_delete_ne, Ho by done.
    rewrite bind_eq. unfold pure at 1. simpl getitem. rewrite Hid.
    rewrite bind_eq, orm_eq. unfold User_objects_get. simpl.
    by rewrite decide_False.
Qed.

(** Playlist 5 submitted for user 99, who does not exist. *)
Lemma update_owner_unresolved_witness :
  update Sample.playlist5 (VDict (list_to_map Sample.unknown_owner_items), Sample.db)
  = (Raise (DoesNotExist "User"),
     (VDict (delete "owner" (delete "tracks" (delete "id"
               (list_to_map Sample.unknown_owner_items)))), Sample.db)).
Proof.
  refine (proj2 (update_owner_unresolved Sample.playlist5
                   (list_to_map Sample.unknown_owner_items) Sample.db
                   (VList []) (Sample.dict [("id", VInt 99)]) _ _)
            (list_to_map [("id", VInt 99)]) 99 _ _ _).
  - reflexivity.
  - reflexivity.
  - reflexivity.
  - reflexivity.
  - apply (bool_decide_unpack _). vm_compute. exact I.
Defined.

(** [update] on a playlist that does not exist: the bulk update changes no
    row, the lookup raises [Playlist.DoesNotExist], nothing is written.  The
    playlist is the one named by the [id] entry of the validated data, or
    [-1] when there is none. *)
Theorem update_unknown_playlist instance (m om : gmap string value) (d : DB)
    (tracks name public : value) (u z : Z) :
  m !! "tracks" = Some tracks →
  m !! "owner" = Some (VDict om) → om !! "id" = Some (VInt u) →
  u ∈ User_objects d →
  m !! "name" = Some name → m !! "public" = Some public →
  default (VInt (-1)) (m !! "id") = VInt z →
  Playlist_objects d !! z = None →
  update instance (VDict m, d) =
  (Raise (DoesNotExist "Playlist"),
   (VDict (delete "owner" (delete "tracks" (delete "id" m))), d)).
Proof.
  intros Ht Ho Hid Hu Hname Hpublic Hz Hnone. unfold update.
  rewrite bind_eq, local_pop_default_dict.
  rewrite bind_eq, local_pop_dict, lookup_delete_ne, Ht by done.
  rewrite bind_eq, local_pop_dict, !lookup_delete_ne, Ho by done.
  rewrite bind_eq. unfold pure at 1. simpl getitem. rewrite Hid.
  rewrite bind_eq, orm_eq.
  rewrite (proj2 (User_objects_get_Ok (VInt u) d u d)) by done.
  apply atomic_Raise. eexists (_, _). split; [|reflexivity].
  rewrite bind_eq. unfold pure at 1, Playlist_objects_filter. rewrite Hz.
  cbn [to_pk].
  rewrite bind_eq, local_getitem_dict, !lookup_delete_ne, Hname by done.
  rewrite bind_eq, local_getitem_dict, !lookup_delete_ne, Hpublic by done.
  rewrite bind_eq, orm_eq. unfold Playlist_update.
  rewrite bind_eq, orm_eq. unfold Playlist_objects_get. cbn [to_pk].
  simpl. by rewrite lookup_alter_eq, Hnone.
Qed.

(** Validated data without [id] address playlist [-1], which does not
    exist. *)
Lemma update_unknown_playlist_witness :
  update Sample.playlist5
    (VDict (list_to_map Sample.unknown_playlist_items), Sample.db)
  = (Raise (DoesNotExist "Playlist"),
     (VDict (delete "owner" (delete "tracks" (delete "id"
               (list_to_map Sample.unknown_playlist_items)))), Sample.db)).
Proof.
  apply (update_unknown_playlist Sample.playlist5
           (list_to_map Sample.unknown_playlist_items)
           (list_to_map [("id", VInt 7)]) Sample.db
           (VList []) (VStr "new") (VBool true) 7 (-1)).
  - reflexivity.
  - reflexivity.
  - reflexivity.
  - apply (bool_decide_unpack _). vm_compute. exact I.
  - reflexivity.
  - reflexivity.
  - reflexivity.
  - reflexivity.
Defined.

(** ** [create] *)

Lemma local_setitem_Ok k v o d s' :
  local_setitem k v (o, d) = (Ok tt, s') →
  ∃ m, o = VDict m ∧ s' = (VDict (<[k := v]> m), d).
Proof.
  unfold local_setitem, setitem; simpl. destruct o; try discriminate.
  intros [= <-]. eauto.
Qed.

(** The steps of a successful [create]. *)
Lemma create_Ok (vd : value) (d : DB) r (vd' : value) (d' : DB) :
  create (vd, d) = (Ok r, (vd', d')) →
  ∃ (m : gmap string value) tracks owner user pp ati d2 o',
    vd = VDict m ∧
    m !! "tracks" = Some tracks ∧ m !! "owner" = Some owner ∧
    getitem owner "id" = Ok (VInt user) ∧ user ∈ User_objects d ∧
    m !! "get_playback_position" = Some pp ∧
    m !! "get_active_track_idx" = Some ati ∧
    r = (next_Playlist_id d, mkPlaylist (m !! "name") (Some user) (m !! "public")) ∧
    PlaylistPosition_objects_update_or_create user r.1 pp ati
      (set_next_Playlist_id (next_Playlist_id d + 1)
         (set_Playlist_objects (insert r.1 r.2) d)) = (Ok tt, d2) ∧
    sync_tracks r (tracks, d2) = (Ok tt, (o', d')).
Proof.
  unfold create.
  intros (id & s1 & (m & -> & -> & ->)%local_pop_default_Ok & H)%bind_Ok.
  apply bind_Ok in H as (tracks_data & s2 & [Ht ->]%local_pop_Ok & H).
  apply bind_Ok in H as (owner & s3 & [Ho ->]%local_pop_Ok & H).
  apply bind_Ok in H as (owner_id & s4 & [= Hoid <-] & H).
  apply bind_Ok in H as (user & s5 & Hu & H).
  rewrite orm_eq in Hu.
  destruct (User_objects_get owner_id d) as [ru d0] eqn:Eu.
  injection Hu as -> <-.
  apply User_objects_get_Ok in Eu as (-> & Huser & ->).
  apply bind_Ok in H as ([] & s6 & (m6 & [= <-] & ->)%local_setitem_Ok & H).
  apply (proj1 (atomic_Ok _ _ _ _)) in H.
  apply bind_Ok in H as (pp & s7 & [Hpp ->]%local_pop_Ok & H).
  apply bind_Ok in H as (ati & s8 & [Hati ->]%local_pop_Ok & H).
  apply bind_Ok in H as (vdata & s9 & [= <- <-] & H).
  apply bind_Ok in H as (playlist & s10 & Hcr & H).
  rewrite orm_eq in Hcr. unfold Playlist_objects_create in Hcr. cbn [fst snd] in Hcr.
  destruct (decide (dom _ ⊆ _)) as [Hdom|]; [|discriminate].
  injection Hcr as <- <-.
  apply bind_Ok in H as ([] & s11 & Hpos & H).
  unfold set_playback_position in Hpos. rewrite orm_eq in Hpos.
  cbn [fst snd] in Hpos.
  destruct (PlaylistPosition_objects_update_or_create _ _ _ _ _) as [rp d2] eqn:Ep.
  injection Hpos as -> <-.
  apply bind_Ok in H as ([] & s12 & Hsync & [= <- ->]).
  rewrite call_eq in Hsync. cbn [fst snd] in Hsync.
  destruct (sync_tracks _ _) as [rs [o' d3]] eqn:Es.
  injection Hsync as -> <-.
  repeat (rewrite lookup_delete_ne in Ht by done).
  repeat (rewrite lookup_delete_ne in Ho by done).
  repeat first [rewrite lookup_delete_ne in Hpp by done
                | rewrite lookup_insert_ne in Hpp by done].
  repeat first [rewrite lookup_delete_ne in Hati by done
                | rewrite lookup_insert_ne in Hati by done].
  repeat first [rewrite lookup_delete_ne in Ep by done
                | rewrite lookup_insert_ne in Ep by done
                | rewrite lookup_insert_eq in Ep].
  repeat first [rewrite lookup_delete_ne in Es by done
                | rewrite lookup_insert_ne in Es by done
                | rewrite lookup_insert_eq in Es].
  exists m, tracks_data, owner, user, pp, ati, d2, o'.
  repeat first [rewrite lookup_delete_ne by done
                | rewrite lookup_insert_ne by done
                | rewrite lookup_insert_eq].
  subst. repeat split; done.
Qed.

(** A successful [create] adds exactly one playlist, whatever [id] the
    validated data carry.  In a database whose playlist keys all lie below
    the key counter, as they do when every key was handed out by it, the key
    of the new playlist was not in use, the table is the old one with the
    new row added under that key, so it has one row more and every other
    playlist is as it was, and the keys still lie below the counter.  The
    name and the visibility of the new playlist are the submitted ones and
    its owner is the user the [owner] entry resolves to. *)
Theorem create_new_playlist (m : gmap string value) (d : DB) r (vd' : value)
    (d' : DB) :
  map_Forall (λ z _, z < next_Playlist_id d) (Playlist_objects d) →
  create (VDict m, d) = (Ok r, (vd', d')) →
  ∃ owner user,
    m !! "owner" = Some owner ∧ getitem owner "id" = Ok (VInt user) ∧
    user ∈ User_objects d ∧
    r = (next_Playlist_id d,
         mkPlaylist (m !! "name") (Some user) (m !! "public")) ∧
    Playlist_objects d !! r.1 = None ∧
    Playlist_objects d' = <[r.1 := r.2]> (Playlist_objects d) ∧
    (∀ z, z ≠ r.1 → Playlist_objects d' !! z = Playlist_objects d !! z) ∧
    size (Playlist_objects d') = S (size (Playlist_objects d)) ∧
    next_Playlist_id d' = next_Playlist_id d + 1 ∧
    map_Forall (λ z _, z < next_Playlist_id d') (Playlist_objects d').
Proof.
  intros Hkeys
         (m' & tracks & owner & user & pp & ati & d2 & o' & [= <-] & Ht & Ho
          & Hu & Huser & Hpp & Hati & Hr & Hpos & Hsync)%create_Ok.
  assert (Playlist_objects d' = <[r.1 := r.2]> (Playlist_objects d)) as HP.
  { apply sync_tracks_frame in Hsync as [(_ & _ & -> & _) _].
    by apply update_or_create_Ok in Hpos as (_ & _ & _ & _ & -> & _). }
  assert (next_Playlist_id d' = next_Playlist_id d + 1) as Hnext.
  { apply sync_tracks_frame in Hsync as [(_ & _ & _ & _ & -> & _) _].
    by apply update_or_create_Ok
      in Hpos as (_ & _ & _ & _ & _ & _ & _ & _ & _ & ->). }
  assert (Playlist_objects d !! r.1 = None) as Hfree.
  { rewrite Hr. simpl.
    destruct (Playlist_objects d !! next_Playlist_id d) as [row|] eqn:E; [|done].
    apply Hkeys in E. lia. }
  exists owner, user. repeat split; try done.
  - intros z Hz. by rewrite HP, lookup_insert_ne.
  - rewrite HP. by apply map_size_insert_None.
  - rewrite HP, Hnext, Hr. simpl. apply map_Forall_insert_2; [lia|].
    intros z row Hz. apply Hkeys in Hz. lia.
Qed.

(** The sample data carry [id = 5] and the sample database holds playlists
    5 and 6 with its counter at 7: the playlist created gets key 7, which
    was free, with user 7 as its owner, and the table has three rows. *)
Lemma create_new_playlist_witness :
  (create (VDict (list_to_map Sample.nines_items), Sample.db)).1
  = Ok (7, mkPlaylist (Some (VStr "new")) (Some 7) (Some (VBool true))) ∧
  Playlist_objects Sample.db !! 7 = None ∧
  size (Playlist_objects
          (create (VDict (list_to_map Sample.nines_items), Sample.db)).2.2) = 3%nat.
Proof.
  destruct (create_new_playlist (list_to_map Sample.nines_items) Sample.db
              (7, mkPlaylist (Some (VStr "new")) (Some 7) (Some (VBool true)))
              (create (VDict (list_to_map Sample.nines_items), Sample.db)).2.1
              (create (VDict (list_to_map Sample.nines_items), Sample.db)).2.2)
    as (owner & user & _ & _ & _ & _ & Hfree & _ & _ & Hsize & _).
  - apply (bool_decide_unpack _). vm_compute. exact I.
  - vm_compute. reflexivity.
  - split; [vm_compute; reflexivity|]. split; [exact Hfree|].
    rewrite Hsize. vm_compute. reflexivity.
Defined.

(** On the create path the playback state is stored as submitted: the row
    of the new playlist and its owner holds the submitted active track index
    and playback position, each in its own column. *)
Theorem create_position_as_submitted (m : gmap string value) (d : DB) r
    (vd' : value) (d' : DB) :
  create (VDict m, d) = (Ok r, (vd', d')) →
  ∃ owner user a p row,
    m !! "owner" = Some owner ∧ getitem owner "id" = Ok (VInt user) ∧
    m !! "get_active_track_idx" = Some a ∧
    m !! "get_playback_position" = Some p ∧
    positions_for user r.1 d' = [row] ∧
    active_track_idx row = a ∧ playback_position row = p.
Proof.
  intros (m' & tracks & owner & user & pp & ati & d2 & o' & [= <-] & Ht & Ho
          & Hu & Huser & Hpp & Hati & Hr & Hpos & Hsync)%create_Ok.
  apply update_or_create_Ok in Hpos as ((row & Hrow & _ & _ & Hp & Ha) & _).
  apply sync_tracks_frame in Hsync as [(_ & _ & _ & HPP & _) _].
  exists owner, user, ati, pp, row. repeat split; try done.
  unfold positions_for in *. by rewrite HPP.
Qed.

(** Created with active track 1 at 42.5 seconds. *)
Lemma create_position_as_submitted_witness :
  ∃ row,
    positions_for 7 7
      (create (VDict (list_to_map Sample.nines_items), Sample.db)).2.2 = [row] ∧
    active_track_idx row = VInt 1 ∧ playback_position row = VFloat 85 (-1).
Proof.
  destruct (create_position_as_submitted (list_to_map Sample.nines_items)
              Sample.db
              (7, mkPlaylist (Some (VStr "new")) (Some 7) (Some (VBool true)))
              (create (VDict (list_to_map Sample.nines_items), Sample.db)).2.1
              (create (VDict (list_to_map Sample.nines_items), Sample.db)).2.2)
    as (owner & user & a & p & row & Ho & Hu & Ha & Hp & Hrow & Hra & Hrp).
  - vm_compute. reflexivity.
  - vm_compute in Ho. injection Ho as <-.
    vm_compute in Hu. injection Hu as <-.
    vm_compute in Ha. injection Ha as <-.
    vm_compute in Hp. injection Hp as <-.
    exists row. split; [exact Hrow|]. split; [exact Hra | exact Hrp].
Defined.

(** The tracks of a created playlist are numbered like those of an updated
    one: orders 0, 1, ... in the order of the submitted list, the track at
    position [i] being the row of the [i]-th descriptor. *)
Theorem create_preserves_order (m : gmap string value) (d : DB) r
    (vd' : value) (d' : DB) (l : list value) :
  create (VDict m, d) = (Ok r, (vd', d')) →
  m !! "tracks" = Some (VList l) →
  track_order <$> playlist_tracks r.1 d'
    = (λ i, Some (VInt i)) <$> seqZ 0 (Z.of_nat (length l)) ∧
  ∀ (i : nat) td, l !! i = Some td →
    ∃ t, playlist_tracks r.1 d' !! i = Some t ∧
         descriptor_row (Youtube_objects d') (File_objects d') r.1
           (Z.of_nat i) (track_id t) td = Some t.
Proof.
  intros (m' & tracks & owner & user & pp & ati & d2 & o' & [= <-] & Ht & Ho
          & Hu & Huser & Hpp & Hati & Hr & Hpos & Hsync)%create_Ok Hl.
  rewrite Hl in Ht. injection Ht as <-.
  by eapply sync_tracks_order.
Qed.

(** Created with three descriptors that all claim order 9. *)
Lemma create_preserves_order_witness :
  track_order <$>
    playlist_tracks 7
      (create (VDict (list_to_map Sample.nines_items), Sample.db)).2.2
  = [Some (VInt 0); Some (VInt 1); Some (VInt 2)].
Proof.
  apply (create_preserves_order (list_to_map Sample.nines_items) Sample.db
           (7, mkPlaylist (Some (VStr "new")) (Some 7) (Some (VBool true)))
           (create (VDict (list_to_map Sample.nines_items), Sample.db)).2.1
           (create (VDict (list_to_map Sample.nines_items), Sample.db)).2.2
           Sample.nines).
  - vm_compute. reflexivity.
  - vm_compute. reflexivity.
Defined.

(** ** What [update] leaves alone *)

(** A successful [update] never writes a user or a file, never removes or
    changes a [Youtube] row, keeps the tracks of every other playlist, and
    keeps the playback position rows of every other (user, playlist)
    pair. *)
Theorem update_frame instance (m : gmap string value) (d : DB) r (vd' : value)
    (d' : DB) :
  update instance (VDict m, d) = (Ok r, (vd', d')) →
  User_objects d' = User_objects d ∧
  File_objects d' = File_objects d ∧
  table_extends (Youtube_objects d) (Youtube_objects d') ∧
  (∀ q, q ≠ r.1 → playlist_tracks q d' = playlist_tracks q d) ∧
  (∃ owner user,
     m !! "owner" = Some owner ∧ getitem owner "id" = Ok (VInt user) ∧
     ∀ u q, (u, q) ≠ (user, r.1) → positions_for u q d' = positions_for u q d).
Proof.
  intros (m' & o' & [= <-] & _ & Hsteps)%update_Ok.
  destruct Hsteps as [id user tracks_data owner name public pp ati d2
            Hid Ht Ho Hu Huser Hname Hpublic Hpp Hati Hrow Hr Hpos Hsync].
  apply update_or_create_Ok in Hpos
    as (_ & Hother & HU & HF & _ & HT & HY & _).
  pose proof (λ q, sync_tracks_keeps_others _ _ _ _ _ q Hsync) as Htracks.
  apply sync_tracks_frame in Hsync as ((HU' & HF' & _ & HPP & _) & Hext).
  split; [by rewrite HU', HU|]. split; [by rewrite HF', HF|].
  split; [rewrite HY in Hext; exact Hext|]. split.
  - intros q Hq. rewrite Htracks by done. unfold playlist_tracks. by rewrite HT.
  - exists owner, user. split; [done|]. split; [done|].
    intros u q Hne. unfold positions_for. rewrite HPP.
    apply Hother. by rewrite <-Hr.
Qed.

(** Saving playlist 5 keeps the track of playlist 6. *)
Lemma update_frame_witness :
  playlist_tracks 6
    (update Sample.playlist5
       (VDict (list_to_map Sample.nines_items), Sample.db)).2.2
  = playlist_tracks 6 Sample.db.
Proof.
  destruct (update_frame Sample.playlist5 (list_to_map Sample.nines_items)
              Sample.db Sample.playlist5_new
              (update Sample.playlist5
                 (VDict (list_to_map Sample.nines_items), Sample.db)).2.1
              (update Sample.playlist5
                 (VDict (list_to_map Sample.nines_items), Sample.db)).2.2)
    as (_ & _ & _ & Htracks & _).
  - vm_compute. reflexivity.
  - apply Htracks. discriminate.
Defined.

(** ** Why a save fails *)

Lemma NoDup_Youtube_with s T :
  NoDup (video_id <$> T) → (length (Youtube_with s T) ≤ 1)%nat.
Proof.
  induction T as [|y T IH]; [simpl; lia|].
  rewrite fmap_cons. intros [Hy HT]%NoDup_cons. unfold Youtube_with in *.
  destruct (decide (video_id y = s)) as [<-|Hne].
  - rewrite filter_cons_True by done.
    apply Youtube_with_nil_iff in Hy. unfold Youtube_with in Hy.
    rewrite Hy. simpl. lia.
  - rewrite filter_cons_False by done. by apply IH.
Qed.

Lemma youtube_block_shape yv d e d' :
  youtube_shape yv → youtube_block yv d = (Raise e, d') →
  e = MultipleObjectsReturned "Youtube" ∧ ¬ NoDup (video_id <$> Youtube_objects d).
Proof.
  intros [Hf|(ym & s & -> & Hid & Hdom)]; unfold youtube_block.
  - by rewrite Hf.
  - rewrite (truthy_dict_lookup _ _ _ Hid). unfold pop_var, pop. rewrite Hid.
    unfold Youtube_objects_get_or_create.
    pose proof (NoDup_Youtube_with s (Youtube_objects d)) as Hle.
    unfold Youtube_with in Hle.
    destruct (filter _ (Youtube_objects d)) as [|y [|y' T']].
    + rewrite decide_True; [done|]. rewrite dom_delete_L. set_solver.
    + done.
    + intros [= <- <-]. split; [done|]. intros Hnd. specialize (Hle Hnd).
      simpl in Hle. lia.
Qed.

Lemma file_block_shape fv d e d' :
  file_shape fv → file_block fv d = (Raise e, d') →
  e = DoesNotExist "File" ∧
  ∃ (fm : gmap string value) z,
    fv = VDict fm ∧ fm !! "id" = Some (VInt z) ∧ z ∉ File_objects d.
Proof.
  intros [Hf|(fm & z & -> & Hid)]; unfold file_block.
  - by rewrite Hf.
  - rewrite (truthy_dict_lookup _ _ _ Hid). simpl getitem. rewrite Hid.
    unfold File_objects_get. simpl. case_decide; [done|].
    intros [= <- <-]. split; [done|]. by exists fm, z.
Qed.

Lemma descriptor_shape_stripped idx (m : gmap string value) :
  dom m ⊆ ({["id"; "playlist"; "order"; "type"; "youtube"; "file"]} : gset string) →
  dom (stripped idx m) ⊆ ({["order"; "type"]} : gset string).
Proof.
  intros H. unfold stripped. rewrite !dom_delete_L, dom_insert_L. set_solver.
Qed.

(** A pass of the loop body on a well-shaped descriptor can only raise for
    a missing file or for an ambiguous video identifier. *)
Lemma sync_tracks_body_shape p idx td d e s' :
  descriptor_shape td →
  sync_tracks_body p idx (td, d) = (Raise e, s') →
  (e = DoesNotExist "File" ∧ ¬ files_exist (File_objects d) td) ∨
  (e = MultipleObjectsReturned "Youtube" ∧
   ¬ NoDup (video_id <$> Youtube_objects d)).
Proof.
  intros (m & yv & fv & -> & Hy & Hf & Hys & Hfs & Hdom).
  rewrite sync_tracks_body_dict. cbv zeta. rewrite Hy.
  destruct (youtube_block yv d) as [[yo|e'] d1] eqn:Eyb.
  - rewrite Hf.
    destruct (file_block fv d1) as [[fo|e'] d2] eqn:Efb.
    + unfold Track_objects_create.
      rewrite decide_True by (by apply descriptor_shape_stripped). done.
    + intros [= <- _]. left.
      apply youtube_block_Ok in Eyb as (_ & _ & _ & _ & _ & HF & _).
      apply file_block_shape in Efb as (-> & fm & z & -> & Hid & Hz); [|done].
      split; [done|]. intros Hex. apply Hz. rewrite HF.
      by apply (Hex m fm z).
  - intros [= <- _]. right. by eapply youtube_block_shape.
Qed.

Lemma files_exist_frame F F' td : F' = F → files_exist F td → files_exist F' td.
Proof. by intros ->. Qed.

Lemma enumerate_from_shape p idx (l : list value) d e s' :
  Forall descriptor_shape l →
  enumerate_from (sync_tracks_body p) idx l d = (Raise e, s') →
  (e = DoesNotExist "File" ∧ ¬ Forall (files_exist (File_objects d)) l) ∨
  (e = MultipleObjectsReturned "Youtube" ∧
   ¬ NoDup (video_id <$> Youtube_objects d)).
Proof.
  intros Hl. revert idx d s'.
  induction Hl as [|td l Htd Hl IH]; intros idx d s'; [done|].
  cbn [enumerate_from].
  destruct (sync_tracks_body p idx (td, d)) as [[[]|e'] [td1 d1]] eqn:Eb.
  - destruct (enumerate_from _ (idx + 1) l d1) as [r [l2 d2]] eqn:El.
    intros [= -> _].
    apply sync_tracks_body_Ok in Eb as (_ & _ & _ & _ & _ & Hext & _ & _ & Hfr).
    destruct Hfr as (_ & HF & _).
    destruct (IH _ _ _ El) as [[-> Hno]|[-> Hno]].
    + left. split; [done|]. intros [_ Hall]%Forall_cons. apply Hno.
      by rewrite HF.
    + right. split; [done|]. intros Hnd. apply Hno.
      by eapply table_extends_NoDup.
  - intros [= <- _].
    destruct (sync_tracks_body_shape _ _ _ _ _ _ Htd Eb) as [[-> Hno]|[-> Hno]].
    + left. split; [done|]. by intros [? _]%Forall_cons.
    + by right.
Qed.

Lemma update_raise_cause instance (m : gmap string value)
    (l : list value) (z u : Z) (d : DB) e (s' : value * DB) :
  playlist_shape m l z u →
  update instance (VDict m, d) = (Raise e, s') →
  (e = DoesNotExist "User" ∧ u ∉ User_objects d) ∨
  (e = DoesNotExist "Playlist" ∧ Playlist_objects d !! z = None) ∨
  (e = DoesNotExist "File" ∧ ¬ Forall (files_exist (File_objects d)) l) ∨
  (e = MultipleObjectsReturned "PlaylistPosition" ∧
   (1 < length (positions_for u z d))%nat) ∨
  (e = MultipleObjectsReturned "Youtube" ∧
   ¬ NoDup (video_id <$> Youtube_objects d)).
Proof.
  intros (Hz & Ht & Hl & (om & Ho & Hid) & [name Hname] & [public Hpublic]
          & [pp Hpp] & [ati Hati]).
  unfold update.
  rewrite bind_eq, local_pop_default_dict.
  rewrite bind_eq, local_pop_dict, lookup_delete_ne, Ht by done.
  rewrite bind_eq, local_pop_dict, !lookup_delete_ne, Ho by done.
  rewrite bind_eq. unfold pure at 1. simpl getitem. rewrite Hid.
  rewrite bind_eq, orm_eq. unfold User_objects_get. cbn [to_pk].
  destruct (decide (u ∈ User_objects d)) as [Hu|Hu]; [|intros [= <- _]; by left].
  intros (s1 & H & _)%atomic_Raise. revert H.
  rewrite bind_eq. unfold pure at 1, Playlist_objects_filter. rewrite Hz.
  cbn [to_pk].
  rewrite bind_eq, local_getitem_dict, !lookup_delete_ne, Hname by done.
  rewrite bind_eq, local_getitem_dict, !lookup_delete_ne, Hpublic by done.
  rewrite bind_eq, orm_eq. unfold Playlist_update.
  rewrite bind_eq, orm_eq. unfold Playlist_objects_get. cbn [to_pk].
  cbn [Playlist_objects set_Playlist_objects]. rewrite lookup_alter_eq.
  destruct (Playlist_objects d !! z) as [row|] eqn:Erow;
    [|intros [= <- _]; right; by left].
  cbn [fmap option_fmap option_map].
  rewrite bind_eq, local_pop_dict, !lookup_delete_ne, Hpp by done.
  rewrite bind_eq, local_pop_dict, !lookup_delete_ne, Hati by done.
  rewrite bind_eq. unfold set_playback_position. rewrite orm_eq. cbn [fst snd].
  destruct (PlaylistPosition_objects_update_or_create u z ati pp _)
    as [[[]|e'] d2] eqn:Epos.
  - rewrite bind_eq, call_eq.
    destruct (sync_tracks _ (VList l, d2)) as [[[]|e'] [o' d3]] eqn:Es;
      [discriminate|].
    intros [= <- _].
    apply update_or_create_Ok in Epos as (_ & _ & _ & HF & _ & _ & HY & _).
    rewrite sync_tracks_list in Es.
    destruct (enumerate_from _ _ _ _) as [[a|e''] [l' d4]] eqn:El; [discriminate|].
    injection Es as ->.
    destruct (enumerate_from_shape _ _ _ _ _ _ Hl El) as [[-> Hno]|[-> Hno]].
    + right; right; left. split; [done|]. intros Hall. apply Hno.
      simpl. rewrite HF. done.
    + right; right; right; right. split; [done|]. intros Hnd. apply Hno.
      simpl. rewrite HY. done.
  - intros [= <- _]. right; right; right; left.
    unfold PlaylistPosition_objects_update_or_create in Epos.
    unfold positions_for.
    change (PlaylistPosition_objects d) with
      (PlaylistPosition_objects
         (set_Playlist_objects
            (alter (λ p, mkPlaylist (Some name) (playlist_owner p) (Some public)) z) d)).
    destruct (filter _ _) as [|? [|]]; try discriminate.
    injection Epos as <-. split; [done|]. simpl. lia.
Qed.

(** On well-shaped validated data a lookup failure that leaves [update]
    names its cause in the database as it was before the call:
    [User.DoesNotExist] means the owner does not exist,
    [Playlist.DoesNotExist] that the playlist does not,
    [File.DoesNotExist] that some descriptor names a missing file;
    [MultipleObjectsReturned] for [PlaylistPosition] means that the pair
    already had several position rows, and for [Youtube] that some video
    identifier already had several rows.  Such data never make [update] fail
    on a missing key or attribute, and a failure leaves the database as it
    was. *)
Theorem update_failure_causes instance (m : gmap string value)
    (l : list value) (z u : Z) (d : DB) e (s' : value * DB) :
  playlist_shape m l z u →
  update instance (VDict m, d) = (Raise e, s') →
  (e = DoesNotExist "User" → u ∉ User_objects d) ∧
  (e = DoesNotExist "Playlist" → Playlist_objects d !! z = None) ∧
  (e = DoesNotExist "File" → ¬ Forall (files_exist (File_objects d)) l) ∧
  (e = MultipleObjectsReturned "PlaylistPosition" →
   (1 < length (positions_for u z d))%nat) ∧
  (e = MultipleObjectsReturned "Youtube" →
   ¬ NoDup (video_id <$> Youtube_objects d)) ∧
  (∀ k, e ≠ KeyError k) ∧ e ≠ AttributeError ∧
  s'.2 = d.
Proof.
  intros Hshape H.
  pose proof (update_restores _ _ _ _ H) as Hd.
  destruct (update_raise_cause _ _ _ _ _ _ _ _ Hshape H)
    as [[-> Hc]|[[-> Hc]|[[-> Hc]|[[-> Hc]|[-> Hc]]]]];
    repeat split; first [done | by intros ? | by intros; simplify_eq].
Qed.

(** Playlist 5 submitted for user 99: [update] raises [User.DoesNotExist],
    and user 99 is indeed not in the sample database. *)
Lemma update_failure_causes_witness :
  (update Sample.playlist5
     (VDict (list_to_map Sample.unknown_owner_items), Sample.db)).1
  = Raise (DoesNotExist "User") ∧
  99 ∉ User_objects Sample.db.
Proof.
  destruct (update_failure_causes Sample.playlist5
              (list_to_map Sample.unknown_owner_items) [] 5 99 Sample.db
              (DoesNotExist "User")
              (update Sample.playlist5
                 (VDict (list_to_map Sample.unknown_owner_items), Sample.db)).2)
    as (Huser & _).
  - repeat split; try reflexivity; try (eexists; reflexivity).
    + constructor.
    + exists (list_to_map [("id", VInt 99)]). split; reflexivity.
  - vm_compute. reflexivity.
  - split; [vm_compute; reflexivity | exact (Huser eq_refl)].
Defined.

(** ** What [set_playback_position] leaves alone, and when it fails *)

(** A successful [set_playback_position] writes the row of its own
    (user, playlist) pair only: the rows of every other pair (another user
    of the same playlist, say) and every other table are as before. *)
Theorem set_playback_position_frame playlist (ati pp : value) (user : Z)
    (d d' : DB) :
  set_playback_position playlist ati pp user (tt, d) = (Ok tt, (tt, d')) →
  (∀ u q, (u, q) ≠ (user, playlist.1) →
          positions_for u q d' = positions_for u q d) ∧
  User_objects d' = User_objects d ∧ File_objects d' = File_objects d ∧
  Playlist_objects d' = Playlist_objects d ∧
  Track_objects d' = Track_objects d ∧ Youtube_objects d' = Youtube_objects d.
Proof.
  rewrite set_playback_position_eq.
  destruct (PlaylistPosition_objects_update_or_create _ _ _ _ _) as [r d2] eqn:E.
  intros [= -> <-].
  apply update_or_create_Ok in E as (_ & ? & ? & ? & ? & ? & ? & _). done.
Qed.

(** Setting the position of user 8 in playlist 5 keeps the row of user 7. *)
Lemma set_playback_position_frame_witness :
  positions_for 7 5
    (set_playback_position Sample.playlist5 (VInt 2) (VFloat 5 0) 8
       (tt, Sample.db)).2.2
  = positions_for 7 5 Sample.db.
Proof.
  refine (proj1 (set_playback_position_frame Sample.playlist5 (VInt 2)
                   (VFloat 5 0) 8 Sample.db
                   (set_playback_position Sample.playlist5 (VInt 2) (VFloat 5 0) 8
                      (tt, Sample.db)).2.2 _) 7 5 _).
  - vm_compute. reflexivity.
  - discriminate.
Defined.

(** When a (user, playlist) pair already has more than one row,
    [set_playback_position] raises [MultipleObjectsReturned] and changes
    nothing: it cannot repair the table. *)
Theorem set_playback_position_ambiguous {L} playlist (ati pp : value)
    (user : Z) (o : L) (d : DB) :
  (1 < length (positions_for user playlist.1 d))%nat →
  set_playback_position playlist ati pp user (o, d)
  = (Raise (MultipleObjectsReturned "PlaylistPosition"), (o, d)).
Proof.
  rewrite set_playback_position_eq.
  unfold PlaylistPosition_objects_update_or_create, positions_for.
  destruct (filter _ _) as [|? [|]]; simpl; [lia|lia|done].
Qed.

(** Two rows for user 7 in playlist 5. *)
Lemma set_playback_position_ambiguous_witness :
  set_playback_position Sample.playlist5 (VInt 2) (VFloat 5 0) 7
    (tt, Sample.db_two_rows)
  = (Raise (MultipleObjectsReturned "PlaylistPosition"), (tt, Sample.db_two_rows)).
Proof.
  apply (set_playback_position_ambiguous Sample.playlist5 (VInt 2) (VFloat 5 0) 7
           tt Sample.db_two_rows).
  vm_compute. lia.
Defined.
